(** * irc/commands.go: line tokenizer, command registry and per-verb constructors

    A shallow embedding of [src/irc/commands.go].  Go strings are byte
    sequences: they are modelled as [string] (a list of 8-bit [ascii]), and
    the byte values are read through [bytes].  A Go function returning
    [(EditableCommand, error)] is modelled as a function into [result], whose
    third constructor records a run-time panic (index out of range, negative
    slice length): several of the properties below are about exactly that. *)

From Stdlib Require Import ZArith Lia String Ascii List Bool.
From stdpp Require Import base option list strings gmap.

Local Open Scope string_scope.
Local Open Scope list_scope.
Local Open Scope Z_scope.

(** ** Results, errors and panics *)

(** The two package-level error values. *)
Inductive error : Type :=
| NotEnoughArgsError   (* errors.New("not enough arguments") *)
| ErrParseCommand.     (* errors.New("failed to parse message") *)

(** Run-time panics of the Go runtime that the code can reach. *)
Inductive panic : Type :=
| IndexOutOfRange      (* s[i] with i >= len(s) *)
| MakeSliceLen.        (* make([]T, n) with n < 0 *)

Inductive result (A : Type) : Type :=
| Ok (a : A)
| Err (e : error)
| Panic (p : panic).

Arguments Ok {A} a.
Arguments Err {A} e.
Arguments Panic {A} p.

(** Sequencing: an error or a panic of the first step ends the call. *)
#[global] Instance result_bind : MBind result := fun A B k r =>
  match r with
  | Ok a => k a
  | Err e => Err e
  | Panic p => Panic p
  end.

#[global] Instance error_eq_dec : EqDecision error.
Proof. solve_decision. Defined.

#[global] Instance panic_eq_dec : EqDecision panic.
Proof. solve_decision. Defined.

(** ** Bytes of a string *)

Definition byte (c : ascii) : Z := Z.of_N (N_of_ascii c).

Definition char (b : Z) : ascii := ascii_of_N (Z.to_N b).

Fixpoint bytes (s : string) : list Z :=
  match s with
  | EmptyString => []
  | String c s' => byte c :: bytes s'
  end.

Fixpoint of_bytes (bs : list Z) : string :=
  match bs with
  | [] => EmptyString
  | b :: bs' => String (char b) (of_bytes bs')
  end.

(** ** package strings *)

(** [strings.HasPrefix(s, prefix)] *)
Fixpoint HasPrefix (s prefix : string) {struct prefix} : bool :=
  match prefix, s with
  | EmptyString, _ => true
  | String _ _, EmptyString => false
  | String p prefix', String c s' =>
      if decide (c = p) then HasPrefix s' prefix' else false
  end.

(** [s[1:]], for a non-empty [s] (all its uses are guarded). *)
Definition from1 (s : string) : string :=
  match s with
  | EmptyString => EmptyString
  | String _ t => t
  end.

(** [strings.SplitN(line, sep, 2)] for a one-byte separator: the text before
    the first separator and, when there is one, the text after it. *)
Fixpoint SplitN2 (sep : ascii) (line : string) : string * option string :=
  match line with
  | EmptyString => (EmptyString, None)
  | String c rest =>
      if decide (c = sep) then (EmptyString, Some rest)
      else let '(a, r) := SplitN2 sep rest in (String c a, r)
  end.

(** [strings.Split(s, sep)] for a one-byte separator: all the fields between
    separators; a string without separator (the empty one too) is one field. *)
Fixpoint Split (sep : ascii) (s : string) : list string :=
  match s with
  | EmptyString => [EmptyString]
  | String c rest =>
      if decide (c = sep) then EmptyString :: Split sep rest
      else match Split sep rest with
           | f :: fs => String c f :: fs
           | [] => [String c EmptyString]
           end
  end.

(** [strings.Join(a, "")] *)
Fixpoint Join (a : list string) : string :=
  match a with
  | [] => EmptyString
  | s :: a' => (s ++ Join a')%string
  end.

(** ** package unicode/utf8 *)

Definition RuneError : Z := 0xFFFD.
Definition RuneSelf : Z := 0x80.
Definition MaxRune : Z := 0x10FFFF.

(** The entry of the table [first] for a leading byte: [as] (0xF0) for
    ASCII, [xx] (0xF1) for an invalid leading byte, otherwise the size of the
    encoding in the low three bits and the index of the accept range of the
    second byte in the high four. *)
Definition first (b : Z) : Z :=
  if b <? 0x80 then 0xF0
  else if b <? 0xC2 then 0xF1
  else if b <? 0xE0 then 0x02
  else if b =? 0xE0 then 0x13
  else if b <? 0xED then 0x03
  else if b =? 0xED then 0x23
  else if b <? 0xF0 then 0x03
  else if b =? 0xF0 then 0x34
  else if b <? 0xF4 then 0x04
  else if b =? 0xF4 then 0x44
  else 0xF1.

(** [acceptRanges[i]]: the bounds [lo, hi] of a valid second byte. *)
Definition acceptRanges (i : Z) : Z * Z :=
  if i =? 1 then (0xA0, 0xBF)
  else if i =? 2 then (0x80, 0x9F)
  else if i =? 3 then (0x90, 0xBF)
  else if i =? 4 then (0x80, 0x8F)
  else (0x80, 0xBF).

(** [utf8.DecodeRuneInString], on the bytes of the string: the first rune and
    its width; an invalid or short encoding is [RuneError] of width 1.  (The
    empty branches of the matches on [t0], [t1] and [t2] stand for reads that
    the length test above them excludes.) *)
Definition DecodeRuneInString (s : list Z) : Z * nat :=
  match s with
  | [] => (RuneError, 0%nat)
  | s0 :: t0 =>
      let x := first s0 in
      if 0xF0 <=? x then ((if x =? 0xF1 then RuneError else s0), 1%nat)
      else
        let sz := Z.land x 7 in
        let '(lo, hi) := acceptRanges (Z.shiftr x 4) in
        if Z.of_nat (length s) <? sz then (RuneError, 1%nat)
        else match t0 with
        | [] => (RuneError, 1%nat)
        | s1 :: t1 =>
            if (s1 <? lo) || (hi <? s1) then (RuneError, 1%nat)
            else if sz <=? 2 then
              (Z.lor (Z.shiftl (Z.land s0 0x1F) 6) (Z.land s1 0x3F), 2%nat)
            else match t1 with
            | [] => (RuneError, 1%nat)
            | s2 :: t2 =>
                if (s2 <? 0x80) || (0xBF <? s2) then (RuneError, 1%nat)
                else if sz <=? 3 then
                  (Z.lor (Z.lor (Z.shiftl (Z.land s0 0x0F) 12)
                                (Z.shiftl (Z.land s1 0x3F) 6))
                         (Z.land s2 0x3F), 3%nat)
                else match t2 with
                | [] => (RuneError, 1%nat)
                | s3 :: _ =>
                    if (s3 <? 0x80) || (0xBF <? s3) then (RuneError, 1%nat)
                    else
                      (Z.lor (Z.lor (Z.lor (Z.shiftl (Z.land s0 0x07) 18)
                                           (Z.shiftl (Z.land s1 0x3F) 12))
                                    (Z.shiftl (Z.land s2 0x3F) 6))
                             (Z.land s3 0x3F), 4%nat)
                end
            end
        end
  end.

(** The runes of a byte sequence, decoded front to back as the loop
    [for len(str) > 0 { r, size := DecodeRuneInString(str); ...; str = str[size:] }]
    does; every step consumes at least one byte, so [length s] steps suffice. *)
Fixpoint runes_loop (fuel : nat) (s : list Z) : list Z :=
  match fuel with
  | O => []
  | S fuel' =>
      match s with
      | [] => []
      | _ :: _ =>
          let '(r, size) := DecodeRuneInString s in
          r :: runes_loop fuel' (drop size s)
      end
  end.

Definition runes (s : string) : list Z :=
  runes_loop (length (bytes s)) (bytes s).

(** [utf8.RuneCountInString]: invalid and short encodings count as single
    runes of width one byte, as in [DecodeRuneInString]. *)
Definition RuneCountInString (s : string) : Z := Z.of_nat (length (runes s)).

(** [utf8.AppendRune] for a rune [r >= 0]: its UTF-8 encoding; a surrogate or
    a value above [MaxRune] is encoded as [RuneError]. *)
Definition EncodeRune (r : Z) : list Z :=
  if r <=? 0x7F then [r]
  else if r <=? 0x7FF then
    [Z.lor 0xC0 (Z.shiftr r 6); Z.lor 0x80 (Z.land r 0x3F)]
  else
    let r3 := if (MaxRune <? r) || ((0xD800 <=? r) && (r <=? 0xDFFF))
              then RuneError else r in
    if (MaxRune <? r) || ((0xD800 <=? r) && (r <=? 0xDFFF)) || (r <=? 0xFFFF)
    then [Z.lor 0xE0 (Z.shiftr r3 12);
          Z.lor 0x80 (Z.land (Z.shiftr r3 6) 0x3F);
          Z.lor 0x80 (Z.land r3 0x3F)]
    else [Z.lor 0xF0 (Z.shiftr r 18);
          Z.lor 0x80 (Z.land (Z.shiftr r 12) 0x3F);
          Z.lor 0x80 (Z.land (Z.shiftr r 6) 0x3F);
          Z.lor 0x80 (Z.land r 0x3F)].

(** ** package strings, continued: [ToUpper] *)

Fixpoint string_map (f : ascii -> ascii) (s : string) : string :=
  match s with
  | EmptyString => EmptyString
  | String c s' => String (f c) (string_map f s')
  end.

Definition isASCII (s : string) : bool := forallb (fun b => b <? RuneSelf) (bytes s).

(** One byte of the ASCII path of [strings.ToUpper]:
    [if 'a' <= c && c <= 'z' { c -= 'a' - 'A' }]. *)
Definition upper_byte (c : ascii) : ascii :=
  if (97 <=? byte c) && (byte c <=? 122) then char (byte c - 32) else c.

(** [strings.Map(mapping, s)]: every rune of [s] (an invalid byte reads as
    [RuneError]) is replaced by the encoding of its image, and dropped when
    the image is negative.  (Go copies a valid character that the mapping
    leaves alone byte for byte, which is the encoding of that character.) *)
Definition Map (mapping : Z -> Z) (s : string) : string :=
  of_bytes (flat_map (fun c => let r := mapping c in
                               if 0 <=? r then EncodeRune r else [])
                     (runes s)).

Section Unicode.

(** The case tables of package [unicode] are not part of this repository:
    [upper_table r] stands for [unicode.To(unicode.UpperCase, r)] on a rune
    above [unicode.MaxASCII]. *)
Variable upper_table : Z -> Z.

(** [unicode.ToUpper] *)
Definition unicode_ToUpper (r : Z) : Z :=
  if r <=? 0x7F then
    (if (97 <=? r) && (r <=? 122) then r - 32 else r)
  else upper_table r.

(** [strings.ToUpper]: ASCII-only strings are mapped byte by byte, all others
    rune by rune through [Map]. *)
Definition ToUpper (s : string) : string :=
  if isASCII s then string_map upper_byte s
  else Map unicode_ToUpper s.

End Unicode.

(** ** package strconv *)

(** [strconv.ParseUint(s, 10, 8)]: [None] stands for a non-nil error (a
    syntax error on the empty string or on a byte that is not a decimal digit,
    a range error as soon as the value exceeds [1<<8 - 1]).  The value never
    exceeds 255 while the loop runs, so the 64-bit cutoff and wrap-around
    tests of the Go loop cannot fire and are left out. *)
Fixpoint ParseUint8_loop (n : Z) (s : list Z) : option Z :=
  match s with
  | [] => Some n
  | c :: s' =>
      if (48 <=? c) && (c <=? 57) then
        let n1 := n * 10 + (c - 48) in
        if 255 <? n1 then None else ParseUint8_loop n1 s'
      else None
  end.

Definition ParseUint8 (s : string) : option Z :=
  if decide (s = "") then None else ParseUint8_loop 0 (bytes s).

(** ** Slices *)

(** [s[i]] *)
Definition index {A : Type} (s : list A) (i : nat) : result A :=
  match s !! i with
  | Some x => Ok x
  | None => Panic IndexOutOfRange
  end.

(** [s[i] = x] *)
Definition store {A : Type} (s : list A) (i : nat) (x : A) : result (list A) :=
  if decide (i < length s)%nat then Ok (<[i:=x]> s) else Panic IndexOutOfRange.

(** ** Commands *)

(** [type Mode rune] *)
Abbreviation Mode := Z (only parsing).

Record ModeChange : Type := { mode : Mode; add : bool }.

#[global] Instance ModeChange_eq_dec : EqDecision ModeChange.
Proof. solve_decision. Defined.

(** The command structs, one constructor per struct.  The embedded
    [BaseCommand] holds the client, which no constructor sets (it is nil until
    [SetBase]); it is left out. *)
Inductive Command : Type :=
| UnknownCommand (command : string) (args : list string)
| PingCommand (server server2 : string)
| PongCommand (server1 server2 : string)
| PassCommand (password : string)
| NickCommand (nickname : string)
| UserMsgCommand (user : string) (mode : Z) (unused realname : string)
| QuitCommand (message : string)
| JoinCommand (channels : gmap string string) (zero : bool)
| PartCommand (channels : list string) (message : string)
| PrivMsgCommand (target message : string)
| TopicCommand (channel topic : string)
| ModeCommand (nickname : string) (changes : list ModeChange)
| ChannelModeCommand (channel : string)
| WhoisCommand (target : string) (masks : list string)
| WhoCommand (mask : string) (operatorOnly : bool).

Definition NewUnknownCommand (command : string) (args : list string) : Command :=
  UnknownCommand command args.

Definition NewPingCommand (args : list string) : result Command :=
  match args with
  | [] => Err NotEnoughArgsError
  | a0 :: rest => Ok (PingCommand a0 (match rest with a1 :: _ => a1 | [] => "" end))
  end.

Definition NewPongCommand (args : list string) : result Command :=
  match args with
  | [] => Err NotEnoughArgsError
  | a0 :: rest => Ok (PongCommand a0 (match rest with a1 :: _ => a1 | [] => "" end))
  end.

Definition NewPassCommand (args : list string) : result Command :=
  match args with
  | [] => Err NotEnoughArgsError
  | a0 :: _ => Ok (PassCommand a0)
  end.

Definition NewNickCommand (args : list string) : result Command :=
  if decide (length args ≠ 1%nat) then Err NotEnoughArgsError
  else a0 ← index args 0; Ok (NickCommand a0).

Definition NewUserMsgCommand (args : list string) : result Command :=
  if decide (length args ≠ 4%nat) then Err NotEnoughArgsError
  else
    a0 ← index args 0;
    a2 ← index args 2;
    a3 ← index args 3;
    a1 ← index args 1;
    match ParseUint8 a1 with
    | Some m => Ok (UserMsgCommand a0 m a2 a3)
    | None => Ok (UserMsgCommand a0 0 a2 a3)
    end.

Definition NewQuitCommand (args : list string) : result Command :=
  Ok (QuitCommand (match args with a0 :: _ => a0 | [] => "" end)).

(** The loop [for i, key := range strings.Split(args[1], ",") { keys[i] = key }],
    entered with [i] the index of the first key of [ks]. *)
Fixpoint fill_keys (keys : list string) (i : nat) (ks : list string)
  : result (list string) :=
  match ks with
  | [] => Ok keys
  | key :: ks' => keys' ← store keys i key; fill_keys keys' (S i) ks'
  end.

(** The loop [for i, channel := range channels { msg.channels[channel] = keys[i] }],
    entered with [i] the index of the first channel of [chans]. *)
Fixpoint zip_channels (m : gmap string string) (keys : list string) (i : nat)
    (chans : list string) : result (gmap string string) :=
  match chans with
  | [] => Ok m
  | channel :: chans' =>
      key ← index keys i;
      zip_channels (<[channel := key]> m) keys (S i) chans'
  end.

Definition NewJoinCommand (args : list string) : result Command :=
  match args with
  | [] => Err NotEnoughArgsError
  | a0 :: rest =>
      if decide (a0 = "0") then Ok (JoinCommand ∅ true)
      else
        let channels := Split "," a0 in
        let keys0 := replicate (length channels) "" in
        keys ← match rest with
               | a1 :: _ => fill_keys keys0 0 (Split "," a1)
               | [] => Ok keys0
               end;
        m ← zip_channels ∅ keys 0 channels;
        Ok (JoinCommand m false)
  end.

Definition NewPartCommand (args : list string) : result Command :=
  match args with
  | [] => Err NotEnoughArgsError
  | a0 :: rest =>
      Ok (PartCommand (Split "," a0) (match rest with a1 :: _ => a1 | [] => "" end))
  end.

Definition NewPrivMsgCommand (args : list string) : result Command :=
  match args with
  | a0 :: a1 :: _ => Ok (PrivMsgCommand a0 a1)
  | _ => Err NotEnoughArgsError
  end.

Definition NewTopicCommand (args : list string) : result Command :=
  match args with
  | [] => Err NotEnoughArgsError
  | a0 :: rest => Ok (TopicCommand a0 (match rest with a1 :: _ => a1 | [] => "" end))
  end.

(** [stringToRunes]: the goroutine sends the runes of [str] in order on an
    unbuffered channel and closes it; the receiver is the only other party,
    so the channel is modelled by the sequence of values still to be received.
    (A goroutine left blocked by an early return of the receiver is not
    modelled.) *)
Definition stringToRunes (str : string) : list Z := runes str.

(** [<-ch]: the next value, or the zero value once the channel is closed. *)
Definition recv (ch : list Z) : Z * list Z :=
  match ch with
  | [] => (0, [])
  | r :: ch' => (r, ch')
  end.

(** The inner loop of [NewUserModeCommand],
    [for mode := range modeChange { cmd.changes[index] = ModeChange{mode, add}; index += 1 }]:
    the slice and the index after it. *)
Fixpoint store_modes (changes : list ModeChange) (index : nat) (add : bool)
    (ch : list Z) : result (list ModeChange * nat) :=
  match ch with
  | [] => Ok (changes, index)
  | m :: ch' =>
      changes' ← store changes index {| mode := m; add := add |};
      store_modes changes' (S index) add ch'
  end.

(** The outer loop of [NewUserModeCommand], [for _, arg := range args[1:]]. *)
Fixpoint decode_tokens (changes : list ModeChange) (index : nat)
    (toks : list string) : result (list ModeChange) :=
  match toks with
  | [] => Ok changes
  | arg :: toks' =>
      let modeChange := stringToRunes arg in
      let '(sig, modeChange) := recv modeChange in
      if decide (sig ≠ 43 ∧ sig ≠ 45) then Err ErrParseCommand
      else
        let add := bool_decide (sig = 43) in
        '(changes', index') ← store_modes changes index add modeChange;
        decode_tokens changes' index' toks'
  end.

Definition NewUserModeCommand (args : list string) : result Command :=
  match args with
  | [] => Panic IndexOutOfRange
  | a0 :: toks =>
      let n := RuneCountInString (Join toks) - Z.of_nat (length toks) in
      if n <? 0 then Panic MakeSliceLen
      else
        let changes0 := replicate (Z.to_nat n) {| mode := 0; add := false |} in
        changes ← decode_tokens changes0 0 toks;
        Ok (ModeCommand a0 changes)
  end.

Definition NewChannelModeCommand (args : list string) : result Command :=
  a0 ← index args 0; Ok (ChannelModeCommand a0).

Definition NewWhoisCommand (args : list string) : result Command :=
  match args with
  | [] => Err NotEnoughArgsError
  | [a0] => Ok (WhoisCommand "" (Split "," a0))
  | a0 :: a1 :: _ => Ok (WhoisCommand a0 (Split "," a1))
  end.

Definition NewWhoCommand (args : list string) : result Command :=
  Ok (WhoCommand (match args with a0 :: _ => a0 | [] => "" end)
                 (match args with
                  | _ :: a1 :: _ => bool_decide (a1 = "o")
                  | _ => false
                  end)).

(** ** Tokenizer *)

Definition parseArg (line : string) : string * string :=
  if decide (line = "") then ("", "")
  else if HasPrefix line ":" then (from1 line, "")
  else
    let '(arg, rest) := SplitN2 " " line in
    (arg, default "" rest).

(** The loop of [parseLine],
    [for arg, rest := parseArg(line); arg != ""; arg, rest = parseArg(rest)]:
    the arguments appended.  Every turn of the loop shortens the text, and the
    empty text ends it, so [length line] turns suffice ([parseArgs_fuel]). *)
Fixpoint parseArgs (fuel : nat) (line : string) : list string :=
  match fuel with
  | O => []
  | S fuel' =>
      let '(arg, rest) := parseArg line in
      if decide (arg = "") then [] else arg :: parseArgs fuel' rest
  end.

Definition tokens (line : string) : list string :=
  parseArgs (String.length line) line.

Section Parser.

Variable upper_table : Z -> Z.

(** [IsChannel] is defined in another file of package [irc], which is not
    among the sources: it decides whether a [MODE] target names a channel. *)
Variable IsChannel : string -> bool.

Definition parseLine (line : string) : result (string * list string) :=
  let args := tokens line in
  a0 ← index args 0;
  Ok (ToUpper upper_table a0, drop 1 args).

Definition NewModeCommand (args : list string) : result Command :=
  match args with
  | [] => Err NotEnoughArgsError
  | a0 :: _ =>
      if IsChannel a0 then NewChannelModeCommand args
      else NewUserModeCommand args
  end.

Definition parseCommandFuncs : gmap string (list string -> result Command) :=
  list_to_map
    [ ("JOIN", NewJoinCommand);
      ("MODE", NewModeCommand);
      ("NICK", NewNickCommand);
      ("PART", NewPartCommand);
      ("PASS", NewPassCommand);
      ("PING", NewPingCommand);
      ("PONG", NewPongCommand);
      ("PRIVMSG", NewPrivMsgCommand);
      ("QUIT", NewQuitCommand);
      ("TOPIC", NewTopicCommand);
      ("USER", NewUserMsgCommand);
      ("WHO", NewWhoCommand);
      ("WHOIS", NewWhoisCommand) ].

Definition ParseCommand (line : string) : result Command :=
  '(command, args) ← parseLine line;
  match parseCommandFuncs !! command with
  | None => Ok (NewUnknownCommand command args)
  | Some constructor => constructor args
  end.

End Parser.

(** ** Accessors *)

(** The method [Message] of [PartCommand], on the message field of the
    command; [nick]
    stands for [cmd.Source().Nick()], the nickname of the client the command
    is bound to ([Client] is declared in another file of the package). *)
Definition PartCommand_Message (nick : string) (message : string) : string :=
  if decide (message = "") then nick else message.

(** ** Vocabulary of the statements *)

(** A line of [n] spaces; [spaces 0] is the empty line. *)
Fixpoint spaces (n : nat) : string :=
  match n with
  | O => EmptyString
  | S n' => String " " (spaces n')
  end.

(** The keys of [parseCommandFuncs]. *)
Definition supported_verbs : list string :=
  [ "JOIN"; "MODE"; "NICK"; "PART"; "PASS"; "PING"; "PONG"; "PRIVMSG";
    "QUIT"; "TOPIC"; "USER"; "WHO"; "WHOIS" ].

(** The state of the loop of [parseLine] after [k] further turns, from the
    state where [args] have been appended and [text] remains: the arguments
    appended so far and the text still to be read; [None] when the loop ends
    before. *)
Fixpoint loop_turns (k : nat) (args : list string) (text : string)
  : option (list string * string) :=
  match k with
  | O => Some (args, text)
  | S k' =>
      let '(arg, rest) := parseArg text in
      if decide (arg = "") then None else loop_turns k' (args ++ [arg]) rest
  end.

(** What one flag-token stands for: when its first character is a sign
    marker, one change per character after it, all with that sign. *)
Definition flags_of (tok : string) : option (list ModeChange) :=
  match runes tok with
  | [] => None
  | sig :: flags =>
      if decide (sig = 43) then
        Some (map (fun m => {| mode := m; add := true |}) flags)
      else if decide (sig = 45) then
        Some (map (fun m => {| mode := m; add := false |}) flags)
      else None
  end.

(** The key tokens of a [JOIN]: the fields of its second argument. *)
Definition join_keys (rest : list string) : list string :=
  match rest with
  | a1 :: _ => Split "," a1
  | [] => []
  end.

(** [utf8.ValidString]: no step of the decoding loop meets an invalid or
    short encoding. *)
Fixpoint valid_loop (fuel : nat) (s : list Z) : bool :=
  match fuel with
  | O => true
  | S fuel' =>
      match s with
      | [] => true
      | _ :: _ =>
          let '(r, size) := DecodeRuneInString s in
          if decide (r = RuneError /\ size = 1%nat) then false
          else valid_loop fuel' (drop size s)
      end
  end.

Definition ValidString (s : string) : bool :=
  valid_loop (length (bytes s)) (bytes s).


(** The number of characters after the first one, over all the tokens. *)
Definition flag_count (toks : list string) : nat :=
  sum_list (map (fun tok => pred (length (runes tok))) toks).


(** A [MODE] line whose two flag-tokens split the two bytes of one encoded
    character (0xC3 0xA9) between them. *)
Definition split_line : string :=
  ("MODE nick " ++ of_bytes [0x2B; 0xC3] ++ " " ++ of_bytes [0xA9])%string.


(** ** Further vocabulary *)

(** [sep] occurs in [s]. *)
Fixpoint contains (sep : ascii) (s : string) : bool :=
  match s with
  | EmptyString => false
  | String c s' => if decide (c = sep) then true else contains sep s'
  end.

(** A middle parameter of the wire grammar: not empty, without space, and
    not starting with [':']. *)
Definition is_middle (w : string) : bool :=
  negb (bool_decide (w = "")) && negb (HasPrefix w ":") && negb (contains " " w).

(** [strings.Join(fs, sep)] for a one-byte separator. *)
Fixpoint join_with (sep : ascii) (fs : list string) : string :=
  match fs with
  | [] => EmptyString
  | f :: fs' =>
      match fs' with
      | [] => f
      | _ :: _ => (f ++ String sep (join_with sep fs'))%string
      end
  end.

(** A constructor with minimum arity [min]: it fails with the
    insufficient-arguments error exactly below [min] tokens and returns a
    command exactly from [min] tokens on (so it never panics and never
    returns the other error). *)
Definition fails_below (min : nat) (f : list string -> result Command)
    (args : list string) : Prop :=
  (f args = Err NotEnoughArgsError <-> (length args < min)%nat) /\
  ((exists cmd, f args = Ok cmd) <-> (min <= length args)%nat).

(** The verb a command variant stands for (the stored verb, for the
    passthrough variant). *)
Definition verb_of (cmd : Command) : string :=
  match cmd with
  | UnknownCommand command _ => command
  | PingCommand _ _ => "PING"
  | PongCommand _ _ => "PONG"
  | PassCommand _ => "PASS"
  | NickCommand _ => "NICK"
  | UserMsgCommand _ _ _ _ => "USER"
  | QuitCommand _ => "QUIT"
  | JoinCommand _ _ => "JOIN"
  | PartCommand _ _ => "PART"
  | PrivMsgCommand _ _ => "PRIVMSG"
  | TopicCommand _ _ => "TOPIC"
  | ModeCommand _ _ => "MODE"
  | ChannelModeCommand _ => "MODE"
  | WhoisCommand _ _ => "WHOIS"
  | WhoCommand _ _ => "WHO"
  end.

Definition is_unknown (cmd : Command) : bool :=
  match cmd with
  | UnknownCommand _ _ => true
  | _ => false
  end.

(** Every byte is a decimal digit. *)
Definition all_digits (bs : list Z) : bool :=
  forallb (fun c => (48 <=? c) && (c <=? 57)) bs.

(** The number a sequence of decimal digits writes. *)
Definition decimal_value (bs : list Z) : Z :=
  fold_left (fun n c => n * 10 + (c - 48)) bs 0.

(** The mode a [USER] mode token stands for: its decimal value when it is a
    non-empty sequence of digits that writes at most 255, and 0 otherwise. *)
Definition numeral_mode (m : string) : Z :=
  if negb (bool_decide (m = "")) && all_digits (bytes m)
     && (decimal_value (bytes m) <=? 255)
  then decimal_value (bytes m) else 0.

(** Whether [n] arguments are too few (for [NICK] and [USER]: not the right
    number) for the verb [verb] of the registry; never for another verb. *)
Definition too_few (verb : string) (n : nat) : bool :=
  if decide (verb = "NICK") then negb (n =? 1)%nat
  else if decide (verb = "USER") then negb (n =? 4)%nat
  else if decide (verb = "PRIVMSG") then (n <? 2)%nat
  else if decide (verb ∈ ["JOIN"; "MODE"; "PART"; "PASS"; "PING"; "PONG";
                          "TOPIC"; "WHOIS"])
       then (n <? 1)%nat
  else false.

(** * Sanity checks on concrete inputs *)

Example runes_ascii : runes "+iw-o" = [43; 105; 119; 45; 111].
Proof. reflexivity. Qed.

Example runes_two_byte : runes "+é" = [43; 0xE9].
Proof. reflexivity. Qed.

Example runes_euro : runes "€a" = [0x20AC; 97].
Proof. reflexivity. Qed.

Example ToUpper_privmsg f : ToUpper f "privMsg" = "PRIVMSG".
Proof. reflexivity. Qed.

Example ParseUint8_8 : ParseUint8 "8" = Some 8.
Proof. reflexivity. Qed.

Example ParseUint8_255 : ParseUint8 "0255" = Some 255.
Proof. reflexivity. Qed.

Example ParseUint8_256 : ParseUint8 "256" = None.
Proof. reflexivity. Qed.

Example ParseUint8_sign : ParseUint8 "+1" = None.
Proof. reflexivity. Qed.

Example parse_frob f c :
  ParseCommand f c "FROB a b" = Ok (UnknownCommand "FROB" ["a"; "b"]).
Proof. vm_compute. reflexivity. Qed.

Example parse_privmsg f c :
  ParseCommand f c "privmsg #room :hello there friend"
  = Ok (PrivMsgCommand "#room" "hello there friend").
Proof. vm_compute. reflexivity. Qed.

Example join_fewer_keys :
  NewJoinCommand ["#a,#b"; "k1"]
  = Ok (JoinCommand (<["#b" := ""]> (<["#a" := "k1"]> ∅)) false).
Proof. vm_compute. reflexivity. Qed.

Example mode_example :
  NewUserModeCommand ["someuser"; "+iw"; "-o"]
  = Ok (ModeCommand "someuser" [ {| mode := 105; add := true |};
       {| mode := 119; add := true |}; {| mode := 111; add := false |} ]).
Proof. vm_compute. reflexivity. Qed.

(** * Properties *)

(** ** Tokenizer: the loop needs no more than [length line] turns *)

Lemma SplitN2_length sep line a r :
  SplitN2 sep line = (a, Some r) ->
  (String.length r < String.length line)%nat.
Proof.
  revert a r. induction line as [|c rest IH]; intros a r; simpl.
  - discriminate.
  - destruct (decide (c = sep)).
    + intros [= <- <-]. lia.
    + destruct (SplitN2 sep rest) as [a' r'] eqn:E.
      intros [= <- ->]. specialize (IH _ _ eq_refl). lia.
Qed.

Lemma parseArg_length line arg rest :
  parseArg line = (arg, rest) -> arg <> "" ->
  (String.length rest < String.length line)%nat.
Proof.
  unfold parseArg. destruct (decide (line = "")) as [->|Hne].
  - intros [= <- <-]. congruence.
  - destruct line as [|c tail]; [congruence|].
    destruct (HasPrefix (String c tail) ":").
    + intros [= <- <-] _. simpl. lia.
    + destruct (SplitN2 " " (String c tail)) as [a [r|]] eqn:E.
      * intros [= <- <-] _. simpl. apply SplitN2_length in E. simpl in E. lia.
      * intros [= <- <-] _. simpl. lia.
Qed.

Lemma parseArgs_fuel f1 f2 line :
  (String.length line <= f1)%nat -> (String.length line <= f2)%nat ->
  parseArgs f1 line = parseArgs f2 line.
Proof.
  revert f2 line. induction f1 as [|f1 IH]; intros f2 line H1 H2.
  - destruct line; [|simpl in H1; lia]. destruct f2; reflexivity.
  - destruct f2 as [|f2].
    + destruct line; [reflexivity | simpl in H2; lia].
    + simpl. destruct (parseArg line) as [arg rest] eqn:E.
      destruct (decide (arg = "")); [reflexivity|].
      pose proof (parseArg_length _ _ _ E n).
      f_equal. apply IH; lia.
Qed.

Lemma tokens_step line arg rest :
  parseArg line = (arg, rest) -> arg <> "" ->
  tokens line = arg :: tokens rest.
Proof.
  intros E Hne. unfold tokens.
  pose proof (parseArg_length _ _ _ E Hne) as Hlt.
  destruct (String.length line) as [|n] eqn:Hl; [lia|].
  simpl. rewrite E. destruct (decide (arg = "")); [contradiction|].
  f_equal. apply parseArgs_fuel; lia.
Qed.

Lemma tokens_stop line rest :
  parseArg line = ("", rest) -> tokens line = [].
Proof.
  intros E. unfold tokens. destruct (String.length line); [reflexivity|].
  simpl. rewrite E. reflexivity.
Qed.

Lemma tokens_spaces n : tokens (spaces n) = [].
Proof. destruct n; reflexivity. Qed.

(** C1 (defect of the code): on the empty line and on every line of spaces
    only, the tokenizer peels no token, [parseLine] reads [args[0]] of the
    empty argument list, and [ParseCommand] panics with an index out of range
    instead of returning a parse failure. *)
Theorem ParseCommand_blank_line_panics upper_table IsChannel n :
  ParseCommand upper_table IsChannel (spaces n) = Panic IndexOutOfRange.
Proof.
  unfold ParseCommand, parseLine. rewrite tokens_spaces. reflexivity.
Qed.

(** ** JOIN *)

Lemma fill_keys_overflow ks keys i :
  (i <= length keys)%nat -> (length keys - i < length ks)%nat ->
  fill_keys keys i ks = Panic IndexOutOfRange.
Proof.
  revert keys i. induction ks as [|k ks IH]; intros keys i Hi Hlt; simpl in *.
  - lia.
  - unfold store. destruct (decide (i < length keys)%nat) as [Hin|Hout].
    + simpl. apply IH; rewrite length_insert; lia.
    + reflexivity.
Qed.

(** C2 (defect of the code): when a [JOIN] carries more keys than channels,
    the loop that copies the keys writes [keys[i]] past the length of the
    channel list and the constructor panics with an index out of range; the
    extra keys are not ignored. *)
Theorem NewJoinCommand_excess_keys_panic chans keys rest :
  chans <> "0" ->
  (length (Split "," chans) < length (Split "," keys))%nat ->
  NewJoinCommand (chans :: keys :: rest) = Panic IndexOutOfRange.
Proof.
  intros Hz Hlt. unfold NewJoinCommand.
  destruct (decide (chans = "0")); [contradiction|].
  rewrite fill_keys_overflow; [reflexivity | lia |].
  rewrite length_replicate. lia.
Qed.

Lemma NewJoinCommand_excess_keys_panic_witness :
  NewJoinCommand ["#a"; "k1,k2"] = Panic IndexOutOfRange.
Proof.
  apply (NewJoinCommand_excess_keys_panic "#a" "k1,k2" []).
  - discriminate.
  - vm_compute. lia.
Defined.

(** ** NICK and USER *)

(** C6: [NICK] takes exactly one token and [USER] exactly four: with any
    other number of tokens, fewer or more, the constructor returns the
    insufficient-arguments error (and so no command), and with exactly that
    number it returns a command. *)
Theorem Nick_User_exact_arity (args : list string) :
  (NewNickCommand args = Err NotEnoughArgsError <-> length args <> 1%nat) /\
  ((exists cmd, NewNickCommand args = Ok cmd) <-> length args = 1%nat) /\
  (NewUserMsgCommand args = Err NotEnoughArgsError <-> length args <> 4%nat) /\
  ((exists cmd, NewUserMsgCommand args = Ok cmd) <-> length args = 4%nat).
Proof.
  unfold NewNickCommand, NewUserMsgCommand.
  repeat split.
  - destruct (decide (length args <> 1%nat)); [auto|].
    destruct args as [|a [|b l]]; simpl in *; try lia. discriminate.
  - intros H. destruct (decide (length args <> 1%nat)); [reflexivity | contradiction].
  - intros [cmd H]. destruct (decide (length args <> 1%nat)); [discriminate | lia].
  - intros H. destruct args as [|a [|b l]]; simpl in H; try lia.
    exists (NickCommand a). reflexivity.
  - destruct (decide (length args <> 4%nat)); [auto|].
    destruct args as [|a [|b [|c [|d [|e l]]]]]; simpl in *; try lia.
    destruct (ParseUint8 b); discriminate.
  - intros H. destruct (decide (length args <> 4%nat)); [reflexivity | contradiction].
  - intros [cmd H]. destruct (decide (length args <> 4%nat)); [discriminate | lia].
  - intros H. destruct args as [|a [|b [|c [|d [|e l]]]]]; simpl in H; try lia.
    simpl. destruct (ParseUint8 b); eauto.
Qed.

(** C8: in a [USER] with exactly four tokens, a mode token that
    [strconv.ParseUint] rejects (not a numeral, or out of the range of
    [uint8]) does not fail the command: the result is a command whose mode is
    0 and whose other three fields are the tokens themselves. *)
Theorem User_mode_lenient (user m unused realname : string) :
  ParseUint8 m = None ->
  NewUserMsgCommand [user; m; unused; realname]
  = Ok (UserMsgCommand user 0 unused realname).
Proof.
  intros H. unfold NewUserMsgCommand. simpl. rewrite H. reflexivity.
Qed.

Lemma User_mode_lenient_witness :
  NewUserMsgCommand ["alice"; "notanumber"; "*"; "Alice Example"]
  = Ok (UserMsgCommand "alice" 0 "*" "Alice Example").
Proof.
  apply (User_mode_lenient "alice" "notanumber" "*" "Alice Example").
  reflexivity.
Defined.

(** ** Dispatch *)

Lemma parseCommandFuncs_None IsChannel verb :
  verb ∉ supported_verbs -> parseCommandFuncs IsChannel !! verb = None.
Proof.
  intros H. unfold parseCommandFuncs. apply not_elem_of_list_to_map_1.
  exact H.
Qed.

(** C7: when the first token of a line, in upper case, is none of the verbs
    of the registry, [ParseCommand] returns the passthrough command made of
    that upper-case verb and of the remaining tokens unchanged, and no
    error. *)
Theorem ParseCommand_unknown_verb upper_table IsChannel line t ts :
  tokens line = t :: ts ->
  ToUpper upper_table t ∉ supported_verbs ->
  ParseCommand upper_table IsChannel line
  = Ok (UnknownCommand (ToUpper upper_table t) ts).
Proof.
  intros Ht Hv. unfold ParseCommand, parseLine. rewrite Ht. simpl.
  rewrite (parseCommandFuncs_None _ _ Hv). reflexivity.
Qed.

Lemma ParseCommand_unknown_verb_witness :
  ParseCommand (fun r => r) (fun _ => false) "frob a b"
  = Ok (UnknownCommand "FROB" ["a"; "b"]).
Proof.
  apply (ParseCommand_unknown_verb (fun r => r) (fun _ => false)
           "frob a b" "frob" ["a"; "b"]).
  - reflexivity.
  - vm_compute. intros H.
    repeat (apply elem_of_cons in H; destruct H as [H|H]; [discriminate H|]).
    apply elem_of_nil in H. exact H.
Defined.

(** ** User modes *)

(** C3 as the code has it: for [MODE someuser "+iw-o"] the decoder returns
    four changes, all additions: only the first character of a token is read
    as a sign, and the ['-'] in the middle is stored as a flag of its own. *)
Theorem UserMode_sign_inside_token :
  NewUserModeCommand ["someuser"; "+iw-o"]
  = Ok (ModeCommand "someuser"
          [ {| mode := 105; add := true |}; {| mode := 119; add := true |};
            {| mode := 45; add := true |}; {| mode := 111; add := true |} ]).
Proof. vm_compute. reflexivity. Qed.

(** C3 as the spec states it fails: the result is not the three changes
    [+i], [+w], [-o]. *)
Lemma UserMode_sign_inside_token_counterexample :
  NewUserModeCommand ["someuser"; "+iw-o"]
  <> Ok (ModeCommand "someuser"
          [ {| mode := 105; add := true |}; {| mode := 119; add := true |};
            {| mode := 111; add := false |} ]).
Proof. vm_compute. discriminate. Qed.

(** ** Trailing parameter *)

Lemma loop_turns_tokens k args text acc text' :
  loop_turns k args text = Some (acc, text') ->
  args ++ tokens text = acc ++ tokens text'.
Proof.
  revert args text. induction k as [|k IH]; intros args text; simpl.
  - intros [= <- <-]. reflexivity.
  - destruct (parseArg text) as [arg rest] eqn:E.
    destruct (decide (arg = "")); [discriminate|].
    intros H. apply IH in H. rewrite <- H.
    rewrite (tokens_step _ _ _ E n), <- app_assoc. reflexivity.
Qed.

Lemma parseArg_trailing r : parseArg (String ":" r) = (r, "").
Proof.
  unfold parseArg. destruct (decide (String ":" r = "")); [discriminate|].
  reflexivity.
Qed.

Lemma tokens_trailing r : r <> "" -> tokens (String ":" r) = [r].
Proof.
  intros Hr. rewrite (tokens_step (String ":" r) r "" (parseArg_trailing r) Hr).
  reflexivity.
Qed.

Lemma tokens_trailing_empty : tokens ":" = [].
Proof. reflexivity. Qed.

(** C9, amended: when, after some turns of the tokenizer loop, the remaining
    text starts with [':'] and the remainder [r] after the marker is not
    empty, [r] is the last token, verbatim, and no token follows it; when the
    verb [v] was peeled before, [parseLine] returns [r] as the last
    argument. *)
Theorem trailing_parameter upper_table line k acc r :
  loop_turns k [] line = Some (acc, String ":" r) ->
  r <> "" ->
  tokens line = acc ++ [r] /\
  forall v mid, acc = v :: mid ->
    parseLine upper_table line = Ok (ToUpper upper_table v, mid ++ [r]).
Proof.
  intros Hk Hr. apply loop_turns_tokens in Hk. simpl in Hk.
  rewrite tokens_trailing in Hk by exact Hr.
  split; [exact Hk|].
  intros v mid ->. unfold parseLine. rewrite Hk. reflexivity.
Qed.

Lemma trailing_parameter_witness :
  tokens "PRIVMSG #room :hello there friend"
  = ["PRIVMSG"; "#room"] ++ ["hello there friend"] /\
  forall v mid, ["PRIVMSG"; "#room"] = v :: mid ->
    parseLine (fun r => r) "PRIVMSG #room :hello there friend"
    = Ok (ToUpper (fun r => r) v, mid ++ ["hello there friend"]).
Proof.
  apply (trailing_parameter (fun r => r) "PRIVMSG #room :hello there friend"
           2 ["PRIVMSG"; "#room"] "hello there friend").
  - reflexivity.
  - discriminate.
Defined.

(** C9 as the spec states it fails when nothing follows the marker: after two
    turns on ["PRIVMSG #room :"] the remaining text is the marker alone, the
    loop ends on the empty argument, and the remainder [""] is not appended:
    the arguments are [["#room"]], not [["#room"; ""]]. *)
Lemma trailing_parameter_counterexample :
  loop_turns 2 [] "PRIVMSG #room :" = Some (["PRIVMSG"; "#room"], String ":" "") /\
  tokens "PRIVMSG #room :" <> ["PRIVMSG"; "#room"] ++ [""] /\
  parseLine (fun r => r) "PRIVMSG #room :" = Ok ("PRIVMSG", ["#room"]).
Proof.
  split; [reflexivity|]. split; [|reflexivity].
  vm_compute. discriminate.
Qed.

(** ** JOIN: the channel map *)

Lemma fill_keys_fits ks done rest :
  (length ks <= length rest)%nat ->
  fill_keys (done ++ rest) (length done) ks
  = Ok (done ++ ks ++ drop (length ks) rest).
Proof.
  revert done rest. induction ks as [|k ks IH]; intros done rest Hle; simpl.
  - rewrite drop_0. reflexivity.
  - destruct rest as [|r0 rest]; simpl in Hle; [lia|].
    unfold store. rewrite decide_True by (rewrite length_app; simpl; lia).
    simpl.
    replace (<[length done := k]> (done ++ r0 :: rest))
      with ((done ++ [k]) ++ rest).
    + replace (S (length done)) with (length (done ++ [k]))
        by (rewrite length_app; simpl; lia).
      rewrite IH by lia. rewrite <- app_assoc. reflexivity.
    + rewrite <- app_assoc. simpl.
      rewrite insert_app_r_alt by lia. rewrite Nat.sub_diag. reflexivity.
Qed.

Lemma fill_keys_lookup ks n j :
  (length ks <= n)%nat -> (j < n)%nat ->
  exists keys, fill_keys (replicate n "") 0 ks = Ok keys /\
    length keys = n /\ keys !! j = Some (default "" (ks !! j)).
Proof.
  intros Hle Hj.
  pose proof (fill_keys_fits ks [] (replicate n "")) as H.
  simpl in H. rewrite length_replicate in H. specialize (H Hle).
  eexists. split; [exact H|].
  rewrite drop_replicate. split.
  - rewrite length_app, length_replicate. lia.
  - destruct (decide (j < length ks)%nat) as [Hlt|Hge].
    + rewrite lookup_app_l by exact Hlt.
      destruct (lookup_lt_is_Some_2 ks j Hlt) as [x Hx]. rewrite Hx. reflexivity.
    + rewrite lookup_app_r by lia.
      rewrite (lookup_ge_None_2 ks j) by lia. simpl.
      apply lookup_replicate_2. lia.
Qed.

Lemma zip_channels_lookup chans m keys i :
  (i + length chans <= length keys)%nat ->
  exists m', zip_channels m keys i chans = Ok m' /\
    dom m' = list_to_set chans ∪ dom m /\
    (forall c, c ∉ chans -> m' !! c = m !! c) /\
    (forall j c, chans !! j = Some c ->
       (forall j', (j < j')%nat -> chans !! j' <> Some c) ->
       m' !! c = keys !! (i + j)%nat).
Proof.
  revert m i. induction chans as [|ch chans IH]; intros m i Hle; simpl in *.
  - exists m. split; [reflexivity|]. split; [symmetry; apply (left_id_L ∅ (∪))|].
    split; [reflexivity|]. intros j c Hj. rewrite lookup_nil in Hj. discriminate.
  - unfold index.
    destruct (lookup_lt_is_Some_2 keys i ltac:(lia)) as [key Hkey].
    rewrite Hkey. simpl.
    destruct (IH (<[ch:=key]> m) (S i) ltac:(lia)) as (m' & Hz & Hdom & Hout & Hlast).
    exists m'. split; [exact Hz|]. split; [|split].
    + rewrite Hdom, dom_insert_L.
      rewrite (assoc_L (∪)), (comm_L (∪) (list_to_set chans) {[ch]}).
      reflexivity.
    + intros c Hc. apply not_elem_of_cons in Hc as [Hne Hc].
      rewrite (Hout c Hc). apply lookup_insert_ne. congruence.
    + intros j c Hj Hafter. destruct j as [|j]; simpl in Hj.
      * injection Hj as <-.
        assert (ch ∉ chans) as Hnot.
        { intros Hin. apply list_elem_of_lookup in Hin as [j' Hj'].
          apply (Hafter (S j')); [lia | exact Hj']. }
        rewrite (Hout ch Hnot), lookup_insert_eq, Nat.add_0_r.
        symmetry. exact Hkey.
      * rewrite (Hlast j c Hj).
        -- f_equal. lia.
        -- intros j' Hlt. apply (Hafter (S j')). lia.
Qed.

(** C10: in a [JOIN] that is not the ["0"] form, whenever the constructor
    returns a command its channels form a map from names to keys: the names
    are the channel names of the list, each once however often it is
    repeated, and a name is mapped to the key at the position of its last
    occurrence (the empty key when there is no key at that position).  The
    constructor does return a command when there are no more keys than
    channels. *)
Theorem NewJoinCommand_duplicate_channels a0 rest :
  a0 <> "0" ->
  ((length (join_keys rest) <= length (Split "," a0))%nat ->
   exists m, NewJoinCommand (a0 :: rest) = Ok (JoinCommand m false)) /\
  forall cmd, NewJoinCommand (a0 :: rest) = Ok cmd ->
    exists m, cmd = JoinCommand m false /\
      dom m = list_to_set (Split "," a0) /\
      forall j c, Split "," a0 !! j = Some c ->
        (forall j', (j < j')%nat -> Split "," a0 !! j' <> Some c) ->
        m !! c = Some (default "" (join_keys rest !! j)).
Proof.
  intros Hz.
  assert ((length (join_keys rest) <= length (Split "," a0))%nat ->
    exists m, NewJoinCommand (a0 :: rest) = Ok (JoinCommand m false) /\
      dom m = list_to_set (Split "," a0) /\
      forall j c, Split "," a0 !! j = Some c ->
        (forall j', (j < j')%nat -> Split "," a0 !! j' <> Some c) ->
        m !! c = Some (default "" (join_keys rest !! j))) as Hfit.
  { intros Hle. unfold NewJoinCommand.
    destruct (decide (a0 = "0")); [contradiction|].
    set (channels := Split "," a0) in *.
    assert (exists keys,
      match rest with
      | a1 :: _ => fill_keys (replicate (length channels) "") 0 (Split "," a1)
      | [] => Ok (replicate (length channels) "")
      end = Ok keys /\ length keys = length channels /\
      forall j, (j < length channels)%nat ->
        keys !! j = Some (default "" (join_keys rest !! j)))
      as (keys & -> & Hlen & Hkeys).
    { destruct rest as [|a1 rest']; simpl in *.
      - eexists. split; [reflexivity|]. split; [apply length_replicate|].
        intros j Hj. apply lookup_replicate_2. exact Hj.
      - pose proof (fill_keys_fits (Split "," a1) []
                      (replicate (length channels) "")) as H.
        simpl in H. rewrite length_replicate in H. specialize (H Hle).
        eexists. split; [exact H|]. rewrite drop_replicate. split.
        + rewrite length_app, length_replicate. lia.
        + intros j Hj.
          destruct (fill_keys_lookup (Split "," a1) (length channels) j Hle Hj)
            as (keys' & Hk & _ & Hj').
          rewrite H in Hk. injection Hk as <-. rewrite drop_replicate in Hj'.
          exact Hj'. }
    simpl.
    destruct (zip_channels_lookup channels ∅ keys 0 ltac:(simpl; lia))
      as (m & -> & Hdom & _ & Hlast).
    exists m. split; [reflexivity|]. split.
    - rewrite Hdom, dom_empty_L. apply (right_id_L ∅ (∪)).
    - intros j c Hj Hafter. rewrite (Hlast j c Hj Hafter). simpl.
      apply Hkeys. apply lookup_lt_Some in Hj. exact Hj. }
  split.
  - intros Hle. destruct (Hfit Hle) as (m & Hm & _). exists m. exact Hm.
  - intros cmd Hok.
    destruct (decide (length (join_keys rest) <= length (Split "," a0))%nat)
      as [Hle|Hgt].
    + destruct (Hfit Hle) as (m & Hm & Hprops).
      rewrite Hm in Hok. injection Hok as <-. exists m. split; [reflexivity|].
      exact Hprops.
    + exfalso. destruct rest as [|a1 rest']; simpl in Hgt; [lia|].
      revert Hok. unfold NewJoinCommand.
      destruct (decide (a0 = "0")); [contradiction|].
      rewrite fill_keys_overflow; [discriminate | lia |].
      rewrite length_replicate. lia.
Qed.

Lemma NewJoinCommand_duplicate_channels_witness :
  ((length (join_keys ["k1,k2,k3"]) <= length (Split "," "#a,#b,#a"))%nat ->
   exists m, NewJoinCommand ["#a,#b,#a"; "k1,k2,k3"] = Ok (JoinCommand m false)) /\
  forall cmd, NewJoinCommand ["#a,#b,#a"; "k1,k2,k3"] = Ok cmd ->
    exists m, cmd = JoinCommand m false /\
      dom m = list_to_set (Split "," "#a,#b,#a") /\
      forall j c, Split "," "#a,#b,#a" !! j = Some c ->
        (forall j', (j < j')%nat -> Split "," "#a,#b,#a" !! j' <> Some c) ->
        m !! c = Some (default "" (join_keys ["k1,k2,k3"] !! j)).
Proof.
  apply (NewJoinCommand_duplicate_channels "#a,#b,#a" ["k1,k2,k3"]).
  discriminate.
Defined.

Example join_duplicate_last_wins :
  NewJoinCommand ["#a,#b,#a"; "k1,k2,k3"]
  = Ok (JoinCommand (<["#b" := "k2"]> (<["#a" := "k3"]> ∅)) false).
Proof. vm_compute. reflexivity. Qed.

(** ** UTF-8 decoding *)

(** The entries of [first], by range of the leading byte. *)
Lemma first_cases b :
  first b = 0xF0 \/ first b = 0xF1 \/
  (first b = 0x02 /\ 0xC2 <= b < 0xE0) \/
  (first b = 0x13 /\ b = 0xE0) \/
  (first b = 0x03 /\ 0xE1 <= b < 0xF0) \/
  (first b = 0x23 /\ b = 0xED) \/
  (first b = 0x34 /\ b = 0xF0) \/
  (first b = 0x04 /\ 0xF1 <= b < 0xF4) \/
  (first b = 0x44 /\ b = 0xF4).
Proof.
  unfold first.
  repeat match goal with
  | |- context [if ?c then _ else _] => destruct c eqn:?
  end; try rewrite ?Z.ltb_lt, ?Z.ltb_ge, ?Z.eqb_eq, ?Z.eqb_neq in *; 
  try (left; reflexivity); try lia; auto 20.
Qed.

Ltac bool_hyps :=
  repeat match goal with
  | H : (_ || _) = true |- _ => apply orb_true_iff in H
  | H : (_ || _) = false |- _ => apply orb_false_iff in H; destruct H
  | H : (_ <? _) = true |- _ => apply Z.ltb_lt in H
  | H : (_ <? _) = false |- _ => apply Z.ltb_ge in H
  | H : (_ <=? _) = true |- _ => apply Z.leb_le in H
  | H : (_ <=? _) = false |- _ => apply Z.leb_gt in H
  end.

Ltac decode_consts H :=
  rewrite H;
  match goal with
  | |- context [Z.land ?k 7] =>
      let v := eval vm_compute in (Z.land k 7) in change (Z.land k 7) with v
  end;
  match goal with
  | |- context [acceptRanges ?k] =>
      let v := eval vm_compute in (acceptRanges k) in change (acceptRanges k) with v
  end;
  match goal with
  | |- context [240 <=? ?k] =>
      let v := eval vm_compute in (240 <=? k) in change (240 <=? k) with v
  end;
  cbv iota beta zeta.

Ltac decode_split :=
  repeat match goal with
  | |- context [if ?c then _ else _] => destruct c eqn:?
  | |- context [match ?l with [] => _ | _ :: _ => _ end] => destruct l
  end.

Lemma DecodeRuneInString_size s r n :
  s <> [] -> DecodeRuneInString s = (r, n) -> (1 <= n <= length s)%nat.
Proof.
  destruct s as [|s0 t0]; [congruence|]. intros _. unfold DecodeRuneInString.
  destruct (first_cases s0) as [H|[H|[[H _]|[[H _]|[[H _]|[[H _]|[[H _]|[[H _]|[H _]]]]]]]]];
    decode_consts H;
    decode_split; intros [= <- <-]; simpl; lia.
Qed.

(** Text that follows the encoding, when it starts with an ASCII byte, does
    not change what is decoded. *)
Lemma DecodeRuneInString_app s t :
  s <> [] -> (forall b t', t = b :: t' -> b < 0x80) ->
  DecodeRuneInString (s ++ t) = DecodeRuneInString s.
Proof.
  destruct s as [|s0 t0]; [congruence|]. intros _ Ht.
  destruct t as [|b t'].
  { rewrite app_nil_r. reflexivity. }
  specialize (Ht b t' eq_refl).
  unfold DecodeRuneInString. simpl app.
  destruct (first_cases s0) as [H|[H|[[H _]|[[H _]|[[H _]|[[H _]|[[H _]|[[H _]|[H _]]]]]]]]];
    decode_consts H.
  all: destruct t0 as [|s1 [|s2 [|s3 t3]]]; simpl app; simpl length.
  all: decode_split; bool_hyps; try reflexivity; try lia.
Qed.

Lemma land_nonzero_range m lo n z :
  forallb (fun z => negb (Z.land z m =? 0)) (seqZ lo n) = true ->
  lo <= z < lo + n -> Z.land z m <> 0.
Proof.
  intros Hall Hz. rewrite forallb_forall in Hall.
  specialize (Hall z). rewrite <- list_elem_of_In, elem_of_seqZ in Hall.
  specialize (Hall Hz). apply negb_true_iff, Z.eqb_neq in Hall. exact Hall.
Qed.

Lemma shiftr6_two A B :
  Z.shiftr (Z.lor (Z.shiftl A 6) B) 6 = 0 -> A = 0.
Proof.
  rewrite Z.shiftr_lor, Z.shiftr_shiftl_l by lia. simpl Z.sub.
  rewrite Z.shiftl_0_r. intros H. apply Z.lor_eq_0_iff in H. tauto.
Qed.

Lemma shiftr6_three A B C :
  Z.shiftr (Z.lor (Z.lor (Z.shiftl A 12) (Z.shiftl B 6)) C) 6 = 0 ->
  A = 0 /\ B = 0.
Proof.
  rewrite !Z.shiftr_lor, !Z.shiftr_shiftl_l by lia. simpl Z.sub.
  rewrite Z.shiftl_0_r. intros H.
  apply Z.lor_eq_0_iff in H as [H _]. apply Z.lor_eq_0_iff in H as [HA HB].
  apply Z.shiftl_eq_0_iff in HA; [tauto | lia].
Qed.

Lemma shiftr6_four A B C D :
  Z.shiftr (Z.lor (Z.lor (Z.lor (Z.shiftl A 18) (Z.shiftl B 12)) (Z.shiftl C 6)) D) 6 = 0 ->
  A = 0 /\ B = 0.
Proof.
  rewrite !Z.shiftr_lor, !Z.shiftr_shiftl_l by lia. simpl Z.sub.
  intros H.
  apply Z.lor_eq_0_iff in H as [H _]. apply Z.lor_eq_0_iff in H as [H _].
  apply Z.lor_eq_0_iff in H as [HA HB].
  apply Z.shiftl_eq_0_iff in HA; [|lia]. apply Z.shiftl_eq_0_iff in HB; [|lia].
  tauto.
Qed.

(** A sign character is never the rune of a multi-byte encoding. *)
Lemma DecodeRuneInString_sign s0 t0 r n :
  DecodeRuneInString (s0 :: t0) = (r, n) -> r = 43 \/ r = 45 -> s0 = r.
Proof.
  intros Hd Hr.
  assert (Z.shiftr r 6 = 0) as Hs by (destruct Hr as [-> | ->]; reflexivity).
  assert (r <> RuneError) as Hne by (destruct Hr as [-> | ->]; discriminate).
  revert Hd. unfold DecodeRuneInString.
  destruct (first_cases s0) as [H|[H|[[H Hb]|[[H Hb]|[[H Hb]|[[H Hb]|[[H Hb]|[[H Hb]|[H Hb]]]]]]]]];
    decode_consts H; decode_split; bool_hyps; intros [= <- <-];
    try congruence; exfalso.
  all: lazymatch type of Hs with
    | Z.shiftr (Z.lor (Z.lor (Z.lor _ _) _) _) 6 = 0 =>
        apply shiftr6_four in Hs as [Hs Hs']
    | Z.shiftr (Z.lor (Z.lor _ _) _) 6 = 0 =>
        apply shiftr6_three in Hs as [Hs Hs']
    | Z.shiftr (Z.lor _ _) 6 = 0 => apply shiftr6_two in Hs
    end.
  all: try (revert Hs; apply (land_nonzero_range _ 0xC2 30); [reflexivity | lia]).
  all: try (revert Hs; apply (land_nonzero_range _ 0xE1 15); [reflexivity | lia]).
  all: try (revert Hs; apply (land_nonzero_range _ 0xF1 4); [reflexivity | lia]).
  all: try (revert Hs'; apply (land_nonzero_range _ 0xA0 32); [reflexivity | lia]).
  all: try (revert Hs'; apply (land_nonzero_range _ 0x90 48); [reflexivity | lia]).
Qed.

Lemma runes_loop_fuel f1 f2 s :
  (length s <= f1)%nat -> (length s <= f2)%nat ->
  runes_loop f1 s = runes_loop f2 s.
Proof.
  revert f2 s. induction f1 as [|f1 IH]; intros f2 s H1 H2.
  - destruct s; [|simpl in H1; lia]. destruct f2; reflexivity.
  - destruct f2 as [|f2].
    + destruct s; [reflexivity | simpl in H2; lia].
    + destruct s as [|b s']; [reflexivity|].
      cbn [runes_loop]. destruct (DecodeRuneInString (b :: s')) as [r size] eqn:E.
      apply DecodeRuneInString_size in E; [|discriminate].
      f_equal. apply IH; rewrite length_drop; simpl in *; lia.
Qed.

Lemma runes_loop_cons f b s r size :
  DecodeRuneInString (b :: s) = (r, size) ->
  runes_loop (S f) (b :: s) = r :: runes_loop f (drop size (b :: s)).
Proof. intros E. cbn [runes_loop]. rewrite E. reflexivity. Qed.

Lemma runes_loop_app n s t :
  (length s <= n)%nat ->
  (forall b t', t = b :: t' -> b < 0x80) ->
  runes_loop (length (s ++ t)) (s ++ t)
  = runes_loop (length s) s ++ runes_loop (length t) t.
Proof.
  revert s. induction n as [|n IH]; intros s Hn Ht.
  - destruct s; [reflexivity | simpl in Hn; lia].
  - destruct s as [|b s']; [reflexivity|].
    assert (DecodeRuneInString ((b :: s') ++ t) = DecodeRuneInString (b :: s')) as Happ
      by (apply DecodeRuneInString_app; [discriminate | exact Ht]).
    destruct (DecodeRuneInString (b :: s')) as [r size] eqn:E.
    pose proof E as Hsize. apply DecodeRuneInString_size in Hsize; [|discriminate].
    cbn [length] in Hsize, Hn.
    change (length (b :: s')) with (S (length s')).
    rewrite (runes_loop_cons _ _ _ _ _ E).
    change ((b :: s') ++ t) with (b :: (s' ++ t)) in *.
    change (length (b :: s' ++ t)) with (S (length (s' ++ t))).
    rewrite (runes_loop_cons _ _ _ _ _ Happ).
    rewrite <- app_comm_cons. f_equal.
    change (b :: s' ++ t) with ((b :: s') ++ t).
    rewrite drop_app_le by (cbn [length]; lia).
    rewrite (runes_loop_fuel (length (s' ++ t)) (length (drop size (b :: s') ++ t)))
      by (rewrite !length_app, length_drop; cbn [length]; lia).
    rewrite IH by (try rewrite length_drop; cbn [length]; auto; lia).
    f_equal. apply runes_loop_fuel; rewrite length_drop; cbn [length]; lia.
Qed.

Lemma bytes_app s t : bytes (s ++ t)%string = bytes s ++ bytes t.
Proof. induction s as [|c s IH]; simpl; [reflexivity | rewrite IH; reflexivity]. Qed.

Lemma runes_app s t :
  (forall b t', bytes t = b :: t' -> b < 0x80) ->
  runes (s ++ t)%string = runes s ++ runes t.
Proof.
  intros Ht. unfold runes. rewrite bytes_app.
  apply (runes_loop_app (length (bytes s))); [lia | exact Ht].
Qed.

Lemma flags_of_first_byte tok cs :
  flags_of tok = Some cs ->
  (forall b t', bytes tok = b :: t' -> b < 0x80) /\
  length (runes tok) = S (length cs).
Proof.
  unfold flags_of, runes.
  destruct (bytes tok) as [|b bs] eqn:Eb; [simpl; discriminate|].
  destruct (DecodeRuneInString (b :: bs)) as [r size] eqn:E.
  change (length (b :: bs)) with (S (length bs)).
  rewrite (runes_loop_cons _ _ _ _ _ E).
  intros H. split.
  - intros b' t' [= <- <-].
    assert (r = 43 \/ r = 45) as Hr.
    { destruct (decide (r = 43)); [auto|]. destruct (decide (r = 45)); [auto|].
      discriminate. }
    rewrite (DecodeRuneInString_sign _ _ _ _ E Hr). destruct Hr as [-> | ->]; lia.
  - cbn [length]. f_equal.
    destruct (decide (r = 43)); [|destruct (decide (r = 45)); [|discriminate]];
      injection H as <-; rewrite length_map; reflexivity.
Qed.

Lemma flags_of_nonempty tok cs : flags_of tok = Some cs -> bytes tok <> [].
Proof.
  unfold flags_of, runes. destruct (bytes tok); [simpl; discriminate | discriminate].
Qed.

Lemma Join_first_byte toks css :
  mapM flags_of toks = Some css ->
  forall b t', bytes (Join toks) = b :: t' -> b < 0x80.
Proof.
  intros H b t'. destruct toks as [|tok toks]; [simpl; discriminate|].
  rewrite mapM_Some in H. inversion H as [|? cs ? ? Hf _]; subst.
  pose proof (flags_of_nonempty _ _ Hf) as Hne.
  apply flags_of_first_byte in Hf as [Hf _].
  simpl Join. rewrite bytes_app. destruct (bytes tok) as [|b0 bs] eqn:Eb.
  - congruence.
  - simpl. intros [= <- _]. apply (Hf b0 bs eq_refl).
Qed.

Lemma RuneCount_Join toks css :
  mapM flags_of toks = Some css ->
  RuneCountInString (Join toks) - Z.of_nat (length toks)
  = Z.of_nat (length (concat css)).
Proof.
  unfold RuneCountInString. revert css.
  induction toks as [|tok toks IH]; intros css H.
  - injection H as <-. reflexivity.
  - rewrite mapM_Some in H. inversion H as [|? cs ? css' Hf Hrest]; subst.
    rewrite <- mapM_Some in Hrest. specialize (IH _ Hrest).
    simpl Join. rewrite runes_app by (eapply Join_first_byte; eauto).
    apply flags_of_first_byte in Hf as [_ Hlen].
    simpl. rewrite !length_app, Hlen. simpl length in *. lia.
Qed.

(** ** User modes: the decoder *)

Lemma store_modes_fits ch done rest a :
  (length ch <= length rest)%nat ->
  store_modes (done ++ rest) (length done) a ch
  = Ok (done ++ map (fun m => {| mode := m; add := a |}) ch
             ++ drop (length ch) rest,
        (length done + length ch)%nat).
Proof.
  revert done rest. induction ch as [|m ch IH]; intros done rest Hle; simpl.
  - rewrite drop_0, Nat.add_0_r. reflexivity.
  - destruct rest as [|r0 rest]; simpl in Hle; [lia|].
    unfold store. rewrite decide_True by (rewrite length_app; simpl; lia).
    simpl.
    replace (<[length done := {| mode := m; add := a |}]> (done ++ r0 :: rest))
      with ((done ++ [{| mode := m; add := a |}]) ++ rest).
    + replace (S (length done)) with (length (done ++ [{| mode := m; add := a |}]))
        by (rewrite length_app; simpl; lia).
      rewrite IH by lia. rewrite <- app_assoc, length_app. simpl.
      do 2 f_equal. lia.
    + rewrite <- app_assoc. simpl.
      rewrite insert_app_r_alt by lia. rewrite Nat.sub_diag. reflexivity.
Qed.

Lemma flags_of_recv tok cs :
  flags_of tok = Some cs ->
  exists sig flags, recv (stringToRunes tok) = (sig, flags) /\
    (sig = 43 \/ sig = 45) /\
    cs = map (fun m => {| mode := m; add := bool_decide (sig = 43) |}) flags.
Proof.
  unfold flags_of, stringToRunes, recv.
  destruct (runes tok) as [|sig flags]; [discriminate|].
  intros H. exists sig, flags. split; [reflexivity|].
  destruct (decide (sig = 43)) as [->|Hne].
  - injection H as <-. split; [auto|]. reflexivity.
  - destruct (decide (sig = 45)) as [->|Hne']; [|discriminate].
    injection H as <-. split; [auto|]. reflexivity.
Qed.

Lemma decode_tokens_fits toks css done rest :
  mapM flags_of toks = Some css ->
  (length (concat css) <= length rest)%nat ->
  decode_tokens (done ++ rest) (length done) toks
  = Ok (done ++ concat css ++ drop (length (concat css)) rest).
Proof.
  revert css done rest. induction toks as [|tok toks IH]; intros css done rest H Hle.
  - injection H as <-. simpl. rewrite drop_0. reflexivity.
  - rewrite mapM_Some in H. inversion H as [|? cs ? css' Hf Hrest]; subst.
    rewrite <- mapM_Some in Hrest.
    destruct (flags_of_recv _ _ Hf) as (sig & flags & Hrecv & Hsig & ->).
    simpl concat in *. rewrite length_app, length_map in Hle.
    cbn [decode_tokens]. rewrite Hrecv.
    rewrite decide_False by lia.
    rewrite store_modes_fits by lia. simpl.
    rewrite app_assoc.
    replace (length done + length flags)%nat
      with (length (done ++ map (fun m => {| mode := m; add := bool_decide (sig = 43) |}) flags))
      by (rewrite length_app, length_map; reflexivity).
    rewrite IH with (css := css') by (try rewrite length_drop; auto; lia).
    rewrite drop_drop, <- !app_assoc, length_app, length_map. reflexivity.
Qed.

(** C4: when the first character of every flag-token is a sign marker, the
    decoder returns the command whose changes are, token after token in
    argument order, one change per character after the first, in the order of
    the characters, each with the sign that leads its own token; characters
    are the runes of the UTF-8 decoding, not bytes ([flags_of] reads one
    token). *)
Theorem UserMode_decoding nick toks css :
  mapM flags_of toks = Some css ->
  NewUserModeCommand (nick :: toks) = Ok (ModeCommand nick (concat css)).
Proof.
  intros H. unfold NewUserModeCommand.
  rewrite (RuneCount_Join _ _ H).
  destruct (Z.ltb_spec (Z.of_nat (length (concat css))) 0) as [Hneg|_]; [lia|].
  rewrite Nat2Z.id.
  pose proof (decode_tokens_fits toks css []
               (replicate (length (concat css)) {| mode := 0; add := false |}) H) as Hd.
  simpl in Hd. rewrite length_replicate in Hd. rewrite Hd by lia.
  simpl. rewrite drop_replicate, Nat.sub_diag. simpl. rewrite app_nil_r.
  reflexivity.
Qed.

Lemma UserMode_decoding_witness :
  NewUserModeCommand ["someuser"; "+iw"; "-é"; "+"]
  = Ok (ModeCommand "someuser"
          (concat [ [ {| mode := 105; add := true |}; {| mode := 119; add := true |} ];
                    [ {| mode := 0xE9; add := false |} ]; [] ])).
Proof.
  apply (UserMode_decoding "someuser" ["+iw"; "-é"; "+"]).
  reflexivity.
Defined.

Lemma store_not_Err {A} (s : list A) i x e : store s i x <> Err e.
Proof. unfold store. destruct (decide (i < length s)%nat); discriminate. Qed.

Lemma index_not_Err {A} (s : list A) i e : index s i <> Err e.
Proof. unfold index. destruct (s !! i); discriminate. Qed.

Lemma fill_keys_not_Err ks keys i e : fill_keys keys i ks <> Err e.
Proof.
  revert keys i. induction ks as [|k ks IH]; intros keys i; simpl; [discriminate|].
  unfold store. destruct (decide (i < length keys)%nat); simpl; [apply IH | discriminate].
Qed.

Lemma zip_channels_not_Err chans m keys i e : zip_channels m keys i chans <> Err e.
Proof.
  revert m i. induction chans as [|c chans IH]; intros m i; simpl; [discriminate|].
  unfold index. destruct (keys !! i); simpl; [apply IH | discriminate].
Qed.

Lemma store_modes_not_Err ch changes i a e : store_modes changes i a ch <> Err e.
Proof.
  revert changes i. induction ch as [|m ch IH]; intros changes i; simpl; [discriminate|].
  unfold store. destruct (decide (i < length changes)%nat); simpl; [apply IH | discriminate].
Qed.

Lemma recv_not_sign tok sig flags :
  recv (stringToRunes tok) = (sig, flags) -> sig <> 43 /\ sig <> 45 ->
  flags_of tok = None.
Proof.
  unfold recv, stringToRunes, flags_of. destruct (runes tok) as [|r rs].
  - reflexivity.
  - intros [= -> ->] [H1 H2].
    rewrite decide_False by exact H1. rewrite decide_False by exact H2.
    reflexivity.
Qed.

Lemma decode_tokens_Err toks changes i e :
  decode_tokens changes i toks = Err e ->
  e = ErrParseCommand /\ exists tok, tok ∈ toks /\ flags_of tok = None.
Proof.
  revert changes i. induction toks as [|tok toks IH]; intros changes i; simpl.
  - discriminate.
  - destruct (recv (stringToRunes tok)) as [sig flags] eqn:Hrecv.
    destruct (decide (sig <> 43 /\ sig <> 45)) as [Hbad|_].
    + intros [= <-]. split; [reflexivity|]. exists tok. split; [left|].
      eapply recv_not_sign; eauto.
    + destruct (store_modes changes i (bool_decide (sig = 43)) flags)
        as [[changes' i']| e' |p] eqn:Hs; simpl.
      * intros H. apply IH in H as [-> (tok' & Hin & Hf)].
        split; [reflexivity|]. exists tok'. split; [right; exact Hin | exact Hf].
      * exfalso. exact (store_modes_not_Err _ _ _ _ _ Hs).
      * discriminate.
Qed.

Lemma NewUserModeCommand_Err args e :
  NewUserModeCommand args = Err e ->
  e = ErrParseCommand /\
  exists tok, tok ∈ drop 1 args /\ flags_of tok = None.
Proof.
  unfold NewUserModeCommand. destruct args as [|a0 toks]; [discriminate|].
  destruct (_ <? 0); [discriminate|].
  destruct (decode_tokens _ 0 toks) as [changes|e'|p] eqn:Hd; simpl;
    [discriminate | | discriminate].
  intros [= <-]. apply decode_tokens_Err in Hd. exact Hd.
Qed.

Lemma other_constructors_no_ErrParseCommand args :
  NewJoinCommand args <> Err ErrParseCommand /\
  NewNickCommand args <> Err ErrParseCommand /\
  NewPartCommand args <> Err ErrParseCommand /\
  NewPassCommand args <> Err ErrParseCommand /\
  NewPingCommand args <> Err ErrParseCommand /\
  NewPongCommand args <> Err ErrParseCommand /\
  NewPrivMsgCommand args <> Err ErrParseCommand /\
  NewQuitCommand args <> Err ErrParseCommand /\
  NewTopicCommand args <> Err ErrParseCommand /\
  NewUserMsgCommand args <> Err ErrParseCommand /\
  NewWhoCommand args <> Err ErrParseCommand /\
  NewWhoisCommand args <> Err ErrParseCommand /\
  NewChannelModeCommand args <> Err ErrParseCommand.
Proof.
  repeat split.
  - unfold NewJoinCommand. destruct args as [|a0 rest]; [discriminate|].
    destruct (decide (a0 = "0")); [discriminate|].
    match goal with |- context [mbind _ ?k] => destruct k as [keys|e|p] eqn:Hk end;
      simpl; [| |discriminate].
    + destruct (zip_channels ∅ keys 0 (Split "," a0)) as [m|e|p] eqn:Hz; simpl;
        [discriminate | | discriminate].
      exfalso. exact (zip_channels_not_Err _ _ _ _ _ Hz).
    + exfalso. destruct rest; [discriminate|].
      exact (fill_keys_not_Err _ _ _ _ Hk).
  - unfold NewNickCommand. destruct (decide _); [discriminate|].
    destruct (index args 0) eqn:Hi; simpl; try discriminate.
    exfalso. exact (index_not_Err _ _ _ Hi).
  - unfold NewPartCommand. destruct args; discriminate.
  - unfold NewPassCommand. destruct args; discriminate.
  - unfold NewPingCommand. destruct args; discriminate.
  - unfold NewPongCommand. destruct args; discriminate.
  - unfold NewPrivMsgCommand. destruct args as [|? [|? ?]]; discriminate.
  - discriminate.
  - unfold NewTopicCommand. destruct args; discriminate.
  - unfold NewUserMsgCommand. destruct (decide _); [discriminate|].
    destruct args as [|a [|b [|c [|d [|x l]]]]]; simpl in *; try lia.
    destruct (ParseUint8 b); discriminate.
  - discriminate.
  - unfold NewWhoisCommand. destruct args as [|? [|? ?]]; discriminate.
  - unfold NewChannelModeCommand. destruct args; discriminate.
Qed.

Lemma parseCommandFuncs_Some IsChannel verb constructor :
  parseCommandFuncs IsChannel !! verb = Some constructor ->
  (verb = "MODE" /\ constructor = NewModeCommand IsChannel) \/
  (forall args, constructor args <> Err ErrParseCommand).
Proof.
  intros H. unfold parseCommandFuncs in H.
  apply elem_of_list_to_map_2 in H.
  repeat (apply elem_of_cons in H as [H|H];
          [injection H as -> ->;
           first [ left; split; reflexivity
                 | right; intros args;
                   pose proof (other_constructors_no_ErrParseCommand args);
                   tauto ] |]).
  apply elem_of_nil in H. contradiction.
Qed.

(** X1: no other path returns [ErrParseCommand]: when [ParseCommand] fails with
    it, the verb is [MODE], the target is not a channel, and some flag-token
    does not start with a sign marker. *)
Theorem ErrParseCommand_only_from_user_mode upper_table IsChannel line :
  ParseCommand upper_table IsChannel line = Err ErrParseCommand ->
  exists target toks tok,
    parseLine upper_table line = Ok ("MODE", target :: toks) /\
    IsChannel target = false /\
    tok ∈ toks /\ flags_of tok = None.
Proof.
  unfold ParseCommand.
  destruct (parseLine upper_table line) as [[command args]|e|p] eqn:Hp; simpl;
    [| intros [= ->]; revert Hp; unfold parseLine;
       destruct (index (tokens line) 0) eqn:Hi; simpl; try discriminate;
       intros [= ->]; exfalso; exact (index_not_Err _ _ _ Hi)
     | discriminate].
  destruct (parseCommandFuncs IsChannel !! command) as [constructor|] eqn:Hc;
    [|discriminate].
  apply parseCommandFuncs_Some in Hc as [[-> ->]|Hno]; [|intros H; elim (Hno _ H)].
  unfold NewModeCommand. destruct args as [|target toks]; [discriminate|].
  destruct (IsChannel target) eqn:Hch.
  - intros H. exfalso.
    pose proof (other_constructors_no_ErrParseCommand (target :: toks)). tauto.
  - intros H. apply NewUserModeCommand_Err in H as [_ (tok & Hin & Hf)].
    exists target, toks, tok. split; [reflexivity|]. split; [exact Hch|].
    split; [exact Hin | exact Hf].
Qed.

Lemma ErrParseCommand_only_from_user_mode_witness :
  exists target toks tok,
    parseLine (fun r => r) "MODE someuser xo" = Ok ("MODE", target :: toks) /\
    (fun _ : string => false) target = false /\
    tok ∈ toks /\ flags_of tok = None.
Proof.
  apply (ErrParseCommand_only_from_user_mode (fun r => r) (fun _ => false)
           "MODE someuser xo").
  vm_compute. reflexivity.
Defined.

Lemma registry_MODE IsChannel :
  parseCommandFuncs IsChannel !! "MODE" = Some (NewModeCommand IsChannel).
Proof. reflexivity. Qed.

(** C5 (defect of the code): the slice of changes is sized from the rune
    count of the joined tokens.  On [split_line] the second flag-token starts
    with a byte that is no sign marker, so the command ought to fail with
    [ErrParseCommand]; but joined to the first token that byte completes a
    two-byte character, the slice gets length 0, and storing the flag of the
    first token panics with an index out of range before the second token is
    looked at. *)
Theorem UserMode_split_encoding_panics upper_table IsChannel :
  IsChannel "nick" = false ->
  parseLine upper_table split_line
  = Ok ("MODE", ["nick"; of_bytes [0x2B; 0xC3]; of_bytes [0xA9]]) /\
  flags_of (of_bytes [0xA9]) = None /\
  ParseCommand upper_table IsChannel split_line = Panic IndexOutOfRange.
Proof.
  intros Hch.
  assert (parseLine upper_table split_line
          = Ok ("MODE", ["nick"; of_bytes [0x2B; 0xC3]; of_bytes [0xA9]])) as Hp
    by (vm_compute; reflexivity).
  split; [exact Hp|]. split; [vm_compute; reflexivity|].
  unfold ParseCommand. rewrite Hp. simpl mbind.
  rewrite registry_MODE. unfold NewModeCommand. rewrite Hch.
  vm_compute. reflexivity.
Qed.

Lemma UserMode_split_encoding_panics_witness :
  parseLine (fun r => r) split_line
  = Ok ("MODE", ["nick"; of_bytes [0x2B; 0xC3]; of_bytes [0xA9]]) /\
  flags_of (of_bytes [0xA9]) = None /\
  ParseCommand (fun r => r) (fun _ => false) split_line = Panic IndexOutOfRange.
Proof.
  apply (UserMode_split_encoding_panics (fun r => r) (fun _ => false)).
  reflexivity.
Defined.

Lemma DecodeRuneInString_app_valid s t r size :
  s <> [] -> DecodeRuneInString s = (r, size) ->
  ~ (r = RuneError /\ size = 1%nat) ->
  DecodeRuneInString (s ++ t) = (r, size).
Proof.
  destruct s as [|s0 t0]; [congruence|]. intros _.
  unfold DecodeRuneInString. simpl app.
  destruct (first_cases s0) as [H|[H|[[H _]|[[H _]|[[H _]|[[H _]|[[H _]|[[H _]|[H _]]]]]]]]];
    decode_consts H.
  all: destruct t0 as [|s1 [|s2 [|s3 t3]]]; simpl app; simpl length.
  all: decode_split; bool_hyps; intros [= <- <-] Hv;
    try reflexivity; try lia; try (exfalso; apply Hv; split; reflexivity).
Qed.

Lemma valid_loop_fuel f1 f2 s :
  (length s <= f1)%nat -> (length s <= f2)%nat ->
  valid_loop f1 s = valid_loop f2 s.
Proof.
  revert f2 s. induction f1 as [|f1 IH]; intros f2 s H1 H2.
  - destruct s; [|simpl in H1; lia]. destruct f2; reflexivity.
  - destruct f2 as [|f2].
    + destruct s; [reflexivity | simpl in H2; lia].
    + destruct s as [|b s']; [reflexivity|].
      cbn [valid_loop]. destruct (DecodeRuneInString (b :: s')) as [r size] eqn:E.
      apply DecodeRuneInString_size in E; [|discriminate].
      destruct (decide _); [reflexivity|].
      apply IH; rewrite length_drop; simpl in *; lia.
Qed.

Lemma runes_loop_app_valid n s t :
  (length s <= n)%nat ->
  valid_loop (length s) s = true ->
  runes_loop (length (s ++ t)) (s ++ t)
  = runes_loop (length s) s ++ runes_loop (length t) t.
Proof.
  revert s. induction n as [|n IH]; intros s Hn Hv.
  - destruct s; [reflexivity | simpl in Hn; lia].
  - destruct s as [|b s']; [reflexivity|].
    destruct (DecodeRuneInString (b :: s')) as [r size] eqn:E.
    pose proof E as Hsize. apply DecodeRuneInString_size in Hsize; [|discriminate].
    cbn [length] in Hsize, Hn.
    change (length (b :: s')) with (S (length s')) in *.
    cbn [valid_loop] in Hv. rewrite E in Hv.
    destruct (decide (r = RuneError /\ size = 1%nat)) as [|Hok]; [discriminate|].
    assert (DecodeRuneInString ((b :: s') ++ t) = (r, size)) as Happ
      by (apply DecodeRuneInString_app_valid; [discriminate | exact E | exact Hok]).
    rewrite (runes_loop_cons _ _ _ _ _ E).
    change ((b :: s') ++ t) with (b :: (s' ++ t)) in *.
    change (length (b :: s' ++ t)) with (S (length (s' ++ t))).
    rewrite (runes_loop_cons _ _ _ _ _ Happ).
    rewrite <- app_comm_cons. f_equal.
    change (b :: s' ++ t) with ((b :: s') ++ t).
    rewrite drop_app_le by (cbn [length]; lia).
    rewrite (runes_loop_fuel (length (s' ++ t)) (length (drop size (b :: s') ++ t)))
      by (rewrite !length_app, length_drop; cbn [length]; lia).
    rewrite IH.
    + f_equal. apply runes_loop_fuel; rewrite length_drop; cbn [length]; lia.
    + rewrite length_drop. cbn [length]. lia.
    + rewrite <- Hv. apply valid_loop_fuel; rewrite length_drop; cbn [length]; lia.
Qed.

Lemma runes_app_valid s t :
  ValidString s = true -> runes (s ++ t)%string = runes s ++ runes t.
Proof.
  intros Hv. unfold runes. rewrite bytes_app.
  apply (runes_loop_app_valid (length (bytes s))); [lia | exact Hv].
Qed.

Lemma runes_nonempty tok : tok <> "" -> runes tok <> [].
Proof.
  destruct tok as [|c tok]; [congruence|]. intros _. unfold runes.
  simpl bytes. cbn [length runes_loop].
  destruct (DecodeRuneInString (byte c :: bytes tok)). discriminate.
Qed.

Lemma RuneCount_Join_valid toks :
  Forall (fun tok => tok <> "" /\ ValidString tok = true) toks ->
  RuneCountInString (Join toks) - Z.of_nat (length toks)
  = Z.of_nat (flag_count toks).
Proof.
  unfold RuneCountInString, flag_count.
  induction 1 as [|tok toks [Hne Hv] _ IH]; [reflexivity|].
  simpl Join. rewrite runes_app_valid by exact Hv.
  apply runes_nonempty in Hne.
  destruct (runes tok) as [|r rs] eqn:Hr; [congruence|].
  simpl. rewrite length_app, Hr. simpl length in *. lia.
Qed.

Lemma flags_of_None_recv tok :
  flags_of tok = None ->
  exists sig flags, recv (stringToRunes tok) = (sig, flags) /\ sig <> 43 /\ sig <> 45.
Proof.
  unfold flags_of, recv, stringToRunes. destruct (runes tok) as [|r rs].
  - intros _. exists 0, []. split; [reflexivity | lia].
  - destruct (decide (r = 43)); [discriminate|].
    destruct (decide (r = 45)); [discriminate|].
    intros _. exists r, rs. auto.
Qed.

Lemma decode_tokens_malformed toks done rest :
  Exists (fun tok => flags_of tok = None) toks ->
  (flag_count toks <= length rest)%nat ->
  decode_tokens (done ++ rest) (length done) toks = Err ErrParseCommand.
Proof.
  unfold flag_count.
  revert done rest. induction toks as [|tok toks IH]; intros done rest Hex Hle.
  - inversion Hex.
  - cbn [decode_tokens]. destruct (flags_of tok) as [cs|] eqn:Hf.
    + assert (Exists (fun tok => flags_of tok = None) toks) as Hex'
        by (inversion Hex; subst; [congruence | assumption]).
      destruct (flags_of_recv _ _ Hf) as (sig & flags & Hrecv & Hsig & ->).
      apply flags_of_first_byte in Hf as [_ Hlen].
      rewrite length_map in Hlen. simpl in Hle. rewrite Hlen in Hle. simpl in Hle.
      rewrite Hrecv. rewrite decide_False by lia.
      rewrite store_modes_fits by lia. simpl.
      rewrite app_assoc.
      replace (length done + length flags)%nat
        with (length (done ++ map (fun m => {| mode := m; add := bool_decide (sig = 43) |}) flags))
        by (rewrite length_app, length_map; reflexivity).
      apply IH.
      * exact Hex'.
      * rewrite length_drop. lia.
    + destruct (flags_of_None_recv _ Hf) as (sig & flags & -> & H1 & H2).
      rewrite decide_True by auto. reflexivity.
Qed.

(** X2: when the flag-tokens are non-empty valid UTF-8, as soon as one of them
    does not start with a sign marker the decoder fails with
    [ErrParseCommand]. *)
Theorem UserMode_malformed_token nick toks :
  Forall (fun tok => tok <> "" /\ ValidString tok = true) toks ->
  Exists (fun tok => flags_of tok = None) toks ->
  NewUserModeCommand (nick :: toks) = Err ErrParseCommand.
Proof.
  intros Hv Hex. unfold NewUserModeCommand.
  rewrite (RuneCount_Join_valid _ Hv).
  destruct (Z.ltb_spec (Z.of_nat (flag_count toks)) 0) as [Hneg|_]; [lia|].
  rewrite Nat2Z.id.
  pose proof (decode_tokens_malformed toks []
               (replicate (flag_count toks) {| mode := 0; add := false |}) Hex) as Hd.
  simpl in Hd. rewrite length_replicate in Hd. rewrite Hd by lia.
  reflexivity.
Qed.

Lemma UserMode_malformed_token_witness :
  NewUserModeCommand ["someuser"; "+i"; "xo"; "-é"] = Err ErrParseCommand.
Proof.
  apply (UserMode_malformed_token "someuser" ["+i"; "xo"; "-é"]).
  - repeat constructor; discriminate.
  - right. left. reflexivity.
Defined.

(** * Further properties of the code *)

(** ** Tokenizer: shape of the tokens *)

Lemma append_empty_r s : (s ++ "")%string = s.
Proof.
  induction s as [|c s IH]; [reflexivity|]. exact (f_equal (String c) IH).
Qed.

Lemma SplitN2_spec sep line a r :
  SplitN2 sep line = (a, r) ->
  contains sep a = false /\
  line = (a ++ match r with Some r' => String sep r' | None => "" end)%string.
Proof.
  revert a r. induction line as [|c rest IH]; intros a r; simpl.
  - intros [= <- <-]. split; reflexivity.
  - destruct (decide (c = sep)) as [->|Hne].
    + intros [= <- <-]. split; reflexivity.
    + destruct (SplitN2 sep rest) as [a' r'] eqn:E.
      intros [= <- <-]. destruct (IH _ _ eq_refl) as [Hc Hl].
      split.
      * simpl. rewrite decide_False by exact Hne. exact Hc.
      * exact (f_equal (String c) Hl).
Qed.

Lemma SplitN2_middle sep w rest :
  contains sep w = false ->
  SplitN2 sep (w ++ String sep rest) = (w, Some rest) /\
  SplitN2 sep w = (w, None).
Proof.
  induction w as [|c w IH]; simpl.
  - intros _. rewrite decide_True by reflexivity. split; reflexivity.
  - destruct (decide (c = sep)); [discriminate|].
    intros H. destruct (IH H) as [-> ->]. split; reflexivity.
Qed.

Lemma parseArg_empty : parseArg "" = ("", "").
Proof. reflexivity. Qed.

Lemma parseArg_middle w rest :
  is_middle w = true ->
  parseArg (w ++ String " " rest) = (w, rest) /\ parseArg w = (w, "").
Proof.
  unfold is_middle. rewrite !andb_true_iff, !negb_true_iff.
  intros [[Hne Hcolon] Hsp]. apply bool_decide_eq_false in Hne.
  destruct w as [|c w]; [congruence|].
  assert (HasPrefix (String c w ++ String " " rest) ":" = false) as Hcolon'.
  { simpl in *. destruct (decide (c = ":"%char)); [discriminate | reflexivity]. }
  destruct (SplitN2_middle " " (String c w) rest Hsp) as [H1 H2].
  unfold parseArg. split.
  - destruct (decide _) as [E|_]; [discriminate E|].
    rewrite Hcolon', H1. reflexivity.
  - destruct (decide _) as [E|_]; [discriminate E|].
    rewrite Hcolon, H2. reflexivity.
Qed.

(** One turn of the loop, read backwards: a peeled argument is either the
    whole remainder after a leading [':'], or a field that ends at the first
    space (or at the end of the text). *)
Lemma parseArg_inv line arg rest :
  parseArg line = (arg, rest) -> arg <> "" ->
  (line = String ":" arg /\ rest = "") \/
  (is_middle arg = true /\ (line = arg /\ rest = "" \/ line = (arg ++ String " " rest)%string)).
Proof.
  unfold parseArg. destruct (decide (line = "")) as [->|Hne].
  { intros [= <- <-]. congruence. }
  destruct line as [|c tail]; [congruence|].
  destruct (HasPrefix (String c tail) ":") eqn:Hp.
  - intros [= <- <-] _. left. simpl in Hp.
    destruct (decide (c = ":"%char)) as [->|]; [|discriminate]. split; reflexivity.
  - destruct (SplitN2 " " (String c tail)) as [a r] eqn:E.
    intros [= <- <-] Ha. right.
    destruct (SplitN2_spec _ _ _ _ E) as [Hc Hl]. split.
    + unfold is_middle. rewrite Hc. rewrite bool_decide_eq_false_2 by exact Ha.
      simpl. rewrite andb_true_r. apply negb_true_iff.
      destruct a as [|c' a']; [congruence|].
      destruct r; simpl in Hl; injection Hl as <- _; exact Hp.
    + destruct r as [r|]; simpl in *.
      * right. exact Hl.
      * left. split; [|reflexivity]. rewrite Hl. apply append_empty_r.
Qed.

Lemma tokens_cases line :
  tokens line = [] \/
  exists arg rest, parseArg line = (arg, rest) /\ arg <> "" /\
    tokens line = arg :: tokens rest /\
    (String.length rest < String.length line)%nat.
Proof.
  destruct (parseArg line) as [arg rest] eqn:E.
  destruct (decide (arg = "")) as [->|Hne].
  - left. eapply tokens_stop. exact E.
  - right. exists arg, rest. split; [reflexivity|]. split; [exact Hne|].
    split; [apply tokens_step; assumption | eapply parseArg_length; eauto].
Qed.

Lemma tokens_shape_aux n : forall line, (String.length line <= n)%nat ->
  forall i t, tokens line !! i = Some t ->
    t <> "" /\ ((S i < length (tokens line))%nat -> is_middle t = true).
Proof.
  induction n as [|n IH]; intros line Hn i t Hi.
  - destruct line; [|simpl in Hn; lia]. discriminate Hi.
  - destruct (tokens_cases line) as [Hnil | (arg & rest & Hp & Hne & Ht & Hlt)].
    + rewrite Hnil in Hi. discriminate.
    + rewrite Ht in Hi |- *. destruct i as [|i]; simpl in Hi.
      * injection Hi as <-. split; [exact Hne|]. simpl. intros Hlen.
        apply parseArg_inv in Hp as [[-> ->] | [Hm _]]; [|exact Hm|exact Hne].
        simpl in Hlen. lia.
      * destruct (IH rest ltac:(lia) i t Hi) as [H1 H2].
        split; [exact H1|]. simpl. intros Hlen. apply H2. lia.
Qed.

(** X3: every token that the tokenizer produces is non-empty, and every
    token but the last one is a middle parameter: it contains no space and
    does not start with [':']. *)
Theorem tokens_shape line i t :
  tokens line !! i = Some t ->
  t <> "" /\ ((S i < length (tokens line))%nat -> is_middle t = true).
Proof. apply (tokens_shape_aux (String.length line)). lia. Qed.

Lemma tokens_shape_witness :
  "PRIVMSG" <> "" /\
  ((1 < length (tokens "PRIVMSG #room :hello there"))%nat -> is_middle "PRIVMSG" = true).
Proof.
  apply (tokens_shape "PRIVMSG #room :hello there" 0 "PRIVMSG"). reflexivity.
Defined.

(** ** Tokenizer: where it stops, and what it reads back *)

Lemma tokens_nil_iff line :
  tokens line = [] <-> line = "" \/ line = ":" \/ exists r, line = String " " r.
Proof.
  split.
  - intros Hnil. destruct (parseArg line) as [arg rest] eqn:E.
    destruct (decide (arg = "")) as [->|Hne].
    + revert E. unfold parseArg.
      destruct (decide (line = "")) as [->|Hl]; [auto|].
      destruct line as [|c tail]; [congruence|].
      destruct (HasPrefix (String c tail) ":") eqn:Hp.
      * intros [= -> ]. simpl in Hp.
        destruct (decide (c = ":"%char)) as [->|]; [auto | discriminate].
      * simpl. destruct (decide (c = " "%char)) as [->|Hc].
        -- intros _. right. right. eauto.
        -- destruct (SplitN2 " " tail). discriminate.
    + rewrite (tokens_step _ _ _ E Hne) in Hnil. discriminate.
  - intros [-> | [-> | [r ->]]]; reflexivity.
Qed.

(** X4: [parseLine] never returns an error; it panics, reading [args[0]] of
    an empty slice, exactly on the empty line, on the line [":"] and on the
    lines that start with a space, and otherwise returns the first token in
    upper case with the remaining tokens. *)
Theorem parseLine_outcome upper_table line :
  (parseLine upper_table line = Panic IndexOutOfRange <->
     line = "" \/ line = ":" \/ exists r, line = String " " r) /\
  (forall e, parseLine upper_table line <> Err e) /\
  (forall t ts, tokens line = t :: ts ->
     parseLine upper_table line = Ok (ToUpper upper_table t, ts)).
Proof.
  unfold parseLine. rewrite <- tokens_nil_iff.
  destruct (tokens line) as [|t ts]; simpl.
  - split; [tauto|]. split; [discriminate|]. discriminate.
  - split; [split; discriminate|]. split; [discriminate|].
    intros t' ts' [= <- <-]. reflexivity.
Qed.

(** X5: tokenization ends at the first empty field: when, after some turns
    of the loop, the remaining text starts with a space (two spaces in a row
    in the line), the text from there on is dropped and the tokens are the
    ones peeled so far. *)
Theorem tokens_stop_at_double_space line k acc r :
  loop_turns k [] line = Some (acc, String " " r) ->
  tokens line = acc.
Proof.
  intros Hk. apply loop_turns_tokens in Hk. simpl in Hk. rewrite Hk.
  replace (tokens (String " " r)) with (@nil string).
  - apply app_nil_r.
  - symmetry. apply tokens_nil_iff. eauto.
Qed.

Lemma tokens_stop_at_double_space_witness :
  tokens "JOIN  #a k" = ["JOIN"].
Proof.
  apply (tokens_stop_at_double_space "JOIN  #a k" 1 ["JOIN"] "#a k").
  reflexivity.
Defined.

Lemma is_middle_nonempty w : is_middle w = true -> w <> "".
Proof. intros Hm ->. discriminate Hm. Qed.

Lemma tokens_middle_alone w : is_middle w = true -> tokens w = [w].
Proof.
  intros Hm. destruct (parseArg_middle w "" Hm) as [_ Hp].
  pose proof (is_middle_nonempty w Hm) as Hne.
  rewrite (tokens_step _ _ _ Hp Hne). reflexivity.
Qed.

Lemma tokens_middle_cons w rest :
  is_middle w = true -> tokens (w ++ String " " rest)%string = w :: tokens rest.
Proof.
  intros Hm. destruct (parseArg_middle w rest Hm) as [Hp _].
  pose proof (is_middle_nonempty w Hm) as Hne.
  apply (tokens_step _ _ _ Hp Hne).
Qed.

Lemma join_with_cons sep f g gs :
  join_with sep (f :: g :: gs) = (f ++ String sep (join_with sep (g :: gs)))%string.
Proof. reflexivity. Qed.

Lemma tokens_join_words ws :
  Forall (fun w => is_middle w = true) ws ->
  tokens (join_with " " ws) = ws /\
  forall t, t <> "" -> tokens (join_with " " (ws ++ [String ":" t])) = ws ++ [t].
Proof.
  induction 1 as [|w ws Hw Hws [IH1 IH2]].
  - split; [reflexivity|]. intros t Ht. simpl. apply tokens_trailing. exact Ht.
  - split.
    + destruct ws as [|w' ws']; [apply tokens_middle_alone; exact Hw|].
      rewrite join_with_cons, tokens_middle_cons by exact Hw.
      rewrite IH1. reflexivity.
    + intros t Ht. specialize (IH2 t Ht).
      destruct ws as [|w' ws'].
      * simpl app. rewrite join_with_cons, tokens_middle_cons by exact Hw.
        simpl. rewrite tokens_trailing by exact Ht. reflexivity.
      * change ((w :: w' :: ws') ++ [String ":" t])
          with (w :: w' :: (ws' ++ [String ":" t])).
        rewrite join_with_cons, tokens_middle_cons by exact Hw.
        change (w' :: ws' ++ [String ":" t]) with ((w' :: ws') ++ [String ":" t]).
        rewrite IH2. reflexivity.
Qed.

(** X6: the tokenizer reads back what the wire grammar writes: middle
    parameters joined by single spaces tokenize to themselves, and with a
    last field [":" ++ t], [t] not empty, the tokens are the parameters
    followed by [t], whatever bytes [t] holds. *)
Theorem tokens_round_trip ws t :
  Forall (fun w => is_middle w = true) ws ->
  t <> "" ->
  tokens (join_with " " ws) = ws /\
  tokens (join_with " " (ws ++ [String ":" t])) = ws ++ [t].
Proof.
  intros Hws Ht. destruct (tokens_join_words ws Hws) as [H1 H2].
  split; [exact H1 | exact (H2 t Ht)].
Qed.

Lemma tokens_round_trip_witness :
  tokens (join_with " " ["TOPIC"; "#room"]) = ["TOPIC"; "#room"] /\
  tokens (join_with " " (["TOPIC"; "#room"] ++ [String ":" "a :b  c"]))
  = ["TOPIC"; "#room"] ++ ["a :b  c"].
Proof.
  apply (tokens_round_trip ["TOPIC"; "#room"] "a :b  c").
  - repeat constructor.
  - discriminate.
Defined.

(** X7: a [PRIVMSG] line made of the verb in any spelling that upper-cases
    to ["PRIVMSG"], a middle parameter as target and a non-empty trailing
    text parses to the command that carries the target and the text
    unchanged. *)
Theorem ParseCommand_privmsg upper_table IsChannel v target msg :
  is_middle v = true -> ToUpper upper_table v = "PRIVMSG" ->
  is_middle target = true -> msg <> "" ->
  ParseCommand upper_table IsChannel
    (join_with " " [v; target; String ":" msg])
  = Ok (PrivMsgCommand target msg).
Proof.
  intros Hv Hup Ht Hm.
  destruct (tokens_join_words [v; target] ltac:(repeat constructor; assumption))
    as [_ Htok].
  specialize (Htok msg Hm). simpl app in Htok.
  unfold ParseCommand, parseLine. rewrite Htok. simpl. rewrite Hup.
  reflexivity.
Qed.

Lemma ParseCommand_privmsg_witness :
  ParseCommand (fun r => r) (fun _ => false)
    (join_with " " ["privmsg"; "#room"; String ":" "hello there friend"])
  = Ok (PrivMsgCommand "#room" "hello there friend").
Proof.
  apply (ParseCommand_privmsg (fun r => r) (fun _ => false)
           "privmsg" "#room" "hello there friend"); try reflexivity.
  discriminate.
Defined.

(** ** Constructors: arity *)

(** X8: [PING], [PONG], [PASS], [PART], [TOPIC] and [WHOIS] need one token,
    [PRIVMSG] two, [QUIT] and [WHO] none: each fails with the
    insufficient-arguments error exactly below its minimum, and returns a
    command otherwise; none of them panics or returns [ErrParseCommand]. *)
Theorem minimum_arity (args : list string) :
  fails_below 1 NewPingCommand args /\
  fails_below 1 NewPongCommand args /\
  fails_below 1 NewPassCommand args /\
  fails_below 1 NewPartCommand args /\
  fails_below 1 NewTopicCommand args /\
  fails_below 1 NewWhoisCommand args /\
  fails_below 2 NewPrivMsgCommand args /\
  fails_below 0 NewQuitCommand args /\
  fails_below 0 NewWhoCommand args.
Proof.
  unfold fails_below, NewPingCommand, NewPongCommand, NewPassCommand,
    NewPartCommand, NewTopicCommand, NewWhoisCommand, NewPrivMsgCommand,
    NewQuitCommand, NewWhoCommand.
  destruct args as [|a0 [|a1 rest]]; simpl;
    repeat split; try discriminate; try lia; eauto;
    intros [cmd H]; discriminate H.
Qed.

(** ** Dispatch: the variant is the one of the verb *)

Lemma registry_variants IsChannel verb constructor :
  (verb, constructor) ∈
    [ ("JOIN", NewJoinCommand); ("MODE", NewModeCommand IsChannel);
      ("NICK", NewNickCommand); ("PART", NewPartCommand);
      ("PASS", NewPassCommand); ("PING", NewPingCommand);
      ("PONG", NewPongCommand); ("PRIVMSG", NewPrivMsgCommand);
      ("QUIT", NewQuitCommand); ("TOPIC", NewTopicCommand);
      ("USER", NewUserMsgCommand); ("WHO", NewWhoCommand);
      ("WHOIS", NewWhoisCommand) ] ->
  forall args cmd, constructor args = Ok cmd ->
    verb_of cmd = verb /\ is_unknown cmd = false.
Proof.
  intros H.
  repeat (apply elem_of_cons in H as [H|H]; [injection H as -> ->|]);
    [..|apply elem_of_nil in H; contradiction]; intros args cmd.
  - unfold NewJoinCommand. destruct args as [|a0 rest]; [discriminate|].
    destruct (decide (a0 = "0")); [intros [= <-]; auto|].
    match goal with |- context [mbind _ ?k] => destruct k as [keys|e|p] end;
      simpl; [|discriminate..].
    destruct (zip_channels ∅ keys 0 (Split "," a0)); simpl;
      [intros [= <-]; auto | discriminate..].
  - unfold NewModeCommand, NewChannelModeCommand, NewUserModeCommand.
    destruct args as [|a0 toks]; [discriminate|].
    destruct (IsChannel a0); simpl; [intros [= <-]; auto|].
    destruct (_ <? 0); [discriminate|].
    destruct (decode_tokens _ 0 toks); simpl; [intros [= <-]; auto | discriminate..].
  - unfold NewNickCommand. destruct (decide _); [discriminate|].
    destruct (index args 0); simpl; [intros [= <-]; auto | discriminate..].
  - unfold NewPartCommand. destruct args; [discriminate|]. intros [= <-]; auto.
  - unfold NewPassCommand. destruct args; [discriminate|]. intros [= <-]; auto.
  - unfold NewPingCommand. destruct args; [discriminate|]. intros [= <-]; auto.
  - unfold NewPongCommand. destruct args; [discriminate|]. intros [= <-]; auto.
  - unfold NewPrivMsgCommand. destruct args as [|? [|? ?]]; try discriminate.
    intros [= <-]; auto.
  - unfold NewQuitCommand. intros [= <-]; auto.
  - unfold NewTopicCommand. destruct args; [discriminate|]. intros [= <-]; auto.
  - unfold NewUserMsgCommand. destruct (decide _); [discriminate|].
    destruct args as [|a [|b [|c [|d [|x l]]]]]; simpl in *; try lia.
    destruct (ParseUint8 b); intros [= <-]; auto.
  - unfold NewWhoCommand. intros [= <-]; auto.
  - unfold NewWhoisCommand. destruct args as [|? [|? ?]]; try discriminate;
      intros [= <-]; auto.
Qed.

Lemma registry_keys IsChannel verb :
  parseCommandFuncs IsChannel !! verb = None -> verb ∉ supported_verbs.
Proof.
  intros H. unfold parseCommandFuncs in H.
  apply not_elem_of_list_to_map_2 in H. exact H.
Qed.

Lemma registry_keys_Some IsChannel verb constructor :
  parseCommandFuncs IsChannel !! verb = Some constructor -> verb ∈ supported_verbs.
Proof.
  intros H. unfold parseCommandFuncs in H.
  apply elem_of_list_to_map_2 in H.
  apply (list_elem_of_fmap_2 fst) in H. exact H.
Qed.

(** X9: whenever [ParseCommand] returns a command, the line has a first
    token, the variant returned is the one of that token in upper case
    ([MODE] has two), and it is the passthrough variant exactly when that
    verb is not a key of the registry: a registered verb never yields a
    passthrough command. *)
Theorem ParseCommand_variant upper_table IsChannel line cmd :
  ParseCommand upper_table IsChannel line = Ok cmd ->
  exists t ts, tokens line = t :: ts /\
    verb_of cmd = ToUpper upper_table t /\
    (is_unknown cmd = true <-> ToUpper upper_table t ∉ supported_verbs).
Proof.
  unfold ParseCommand, parseLine.
  destruct (tokens line) as [|t ts]; [discriminate|]. simpl.
  intros H. exists t, ts. split; [reflexivity|].
  destruct (parseCommandFuncs IsChannel !! ToUpper upper_table t)
    as [constructor|] eqn:Hc.
  - pose proof (registry_keys_Some _ _ _ Hc) as Hin.
    unfold parseCommandFuncs in Hc. apply elem_of_list_to_map_2 in Hc.
    destruct (registry_variants _ _ _ Hc _ _ H) as [Hv Hu].
    split; [exact Hv|]. rewrite Hu. split; [discriminate | contradiction].
  - injection H as <-. simpl. split; [reflexivity|].
    split; [intros _; eapply registry_keys; eauto | reflexivity].
Qed.

Lemma ParseCommand_variant_witness :
  exists t ts, tokens "topic #room :new topic" = t :: ts /\
    verb_of (TopicCommand "#room" "new topic") = ToUpper (fun r => r) t /\
    (is_unknown (TopicCommand "#room" "new topic") = true
     <-> ToUpper (fun r => r) t ∉ supported_verbs).
Proof.
  apply (ParseCommand_variant (fun r => r) (fun _ => false)
           "topic #room :new topic" (TopicCommand "#room" "new topic")).
  vm_compute. reflexivity.
Defined.

(** ** JOIN: all outcomes *)

Lemma NewJoinCommand_fits a0 rest :
  a0 <> "0" ->
  (length (join_keys rest) <= length (Split "," a0))%nat ->
  exists m, NewJoinCommand (a0 :: rest) = Ok (JoinCommand m false).
Proof.
  intros Hz Hle. unfold NewJoinCommand.
  destruct (decide (a0 = "0")); [contradiction|].
  assert (exists keys,
    match rest with
    | a1 :: _ => fill_keys (replicate (length (Split "," a0)) "") 0 (Split "," a1)
    | [] => Ok (replicate (length (Split "," a0)) "")
    end = Ok keys /\ length keys = length (Split "," a0)) as (keys & -> & Hlen).
  { destruct rest as [|a1 rest']; simpl in *.
    - eexists. split; [reflexivity | apply length_replicate].
    - pose proof (fill_keys_fits (Split "," a1) []
                    (replicate (length (Split "," a0)) "")) as H.
      simpl in H. rewrite length_replicate in H. specialize (H Hle).
      eexists. split; [exact H|].
      rewrite length_app, length_drop, length_replicate. lia. }
  simpl.
  destruct (zip_channels_lookup (Split "," a0) ∅ keys 0 ltac:(simpl; lia))
    as (m & -> & _).
  exists m. reflexivity.
Qed.

Lemma NewJoinCommand_Panic_inv args p :
  NewJoinCommand args = Panic p ->
  p = IndexOutOfRange /\
  exists a0 a1 rest, args = a0 :: a1 :: rest /\ a0 <> "0" /\
    (length (Split "," a0) < length (Split "," a1))%nat.
Proof.
  destruct args as [|a0 rest]; [discriminate|]. intros H.
  destruct (decide (a0 = "0")) as [->|Hz]; [discriminate H|].
  destruct (decide (length (join_keys rest) <= length (Split "," a0))%nat)
    as [Hle|Hgt].
  - destruct (NewJoinCommand_fits a0 rest Hz Hle) as [m Hm]. congruence.
  - destruct rest as [|a1 rest']; simpl in Hgt; [lia|].
    revert H. unfold NewJoinCommand. rewrite decide_False by exact Hz.
    rewrite fill_keys_overflow; [|lia|rewrite length_replicate; lia].
    intros [= <-]. split; [reflexivity|].
    exists a0, a1, rest'. split; [reflexivity|]. split; [exact Hz | lia].
Qed.

(** X10: the outcomes of [NewJoinCommand]: the insufficient-arguments error
    exactly without arguments and no other error; for a first argument ["0"]
    the zero form with an empty map, whatever follows; and a panic (index out
    of range) exactly when there are more key fields than channel fields. *)
Theorem NewJoinCommand_outcome (args : list string) :
  (forall e, NewJoinCommand args = Err e <-> e = NotEnoughArgsError /\ args = []) /\
  (forall rest, args = "0" :: rest ->
     NewJoinCommand args = Ok (JoinCommand ∅ true)) /\
  (forall p, NewJoinCommand args = Panic p <->
     p = IndexOutOfRange /\
     exists a0 a1 rest, args = a0 :: a1 :: rest /\ a0 <> "0" /\
       (length (Split "," a0) < length (Split "," a1))%nat).
Proof.
  split; [|split].
  - intros e. split.
    + destruct args as [|a0 rest]; [intros [= <-]; auto|].
      intros H. exfalso.
      destruct (decide (a0 = "0")) as [->|Hz]; [discriminate H|].
      destruct (decide (length (join_keys rest) <= length (Split "," a0))%nat)
        as [Hle|Hgt].
      * destruct (NewJoinCommand_fits a0 rest Hz Hle) as [m Hm]. congruence.
      * destruct rest as [|a1 rest']; simpl in Hgt; [lia|].
        revert H. unfold NewJoinCommand. rewrite decide_False by exact Hz.
        rewrite fill_keys_overflow; [discriminate | lia |].
        rewrite length_replicate. lia.
    + intros [-> ->]. reflexivity.
  - intros rest ->. reflexivity.
  - intros p. split.
    + apply NewJoinCommand_Panic_inv.
    + intros [-> (a0 & a1 & rest & -> & Hz & Hlt)].
      unfold NewJoinCommand. rewrite decide_False by exact Hz.
      rewrite fill_keys_overflow; [reflexivity | lia |].
      rewrite length_replicate. lia.
Qed.

(** ** Comma-separated lists *)

Lemma Split_nonempty sep s : Split sep s <> [].
Proof.
  destruct s as [|c rest]; simpl; [discriminate|].
  destruct (decide (c = sep)); [discriminate|].
  destruct (Split sep rest); discriminate.
Qed.

Lemma Split_join sep s : join_with sep (Split sep s) = s.
Proof.
  induction s as [|c rest IH]; simpl; [reflexivity|].
  destruct (decide (c = sep)) as [->|Hne].
  - pose proof (Split_nonempty sep rest) as Hn.
    destruct (Split sep rest) as [|g gs]; [congruence|].
    rewrite join_with_cons, IH. reflexivity.
  - destruct (Split sep rest) as [|f [|g gs]].
    + simpl in IH. subst rest. reflexivity.
    + simpl in *. subst rest. reflexivity.
    + rewrite join_with_cons in *. rewrite <- IH. reflexivity.
Qed.

Lemma Split_no_sep sep s :
  Forall (fun f => contains sep f = false) (Split sep s).
Proof.
  induction s as [|c rest IH]; simpl.
  - repeat constructor.
  - destruct (decide (c = sep)) as [->|Hne]; [constructor; [reflexivity | exact IH]|].
    destruct (Split sep rest) as [|f fs].
    + repeat constructor. simpl. rewrite decide_False by exact Hne. reflexivity.
    + inversion IH; subst. constructor; [|assumption].
      simpl. rewrite decide_False by exact Hne. assumption.
Qed.

Lemma Split_field sep f :
  contains sep f = false -> Split sep f = [f].
Proof.
  induction f as [|c f IH]; simpl; [reflexivity|].
  destruct (decide (c = sep)); [discriminate|].
  intros H. rewrite (IH H). reflexivity.
Qed.

Lemma Split_field_cons sep f rest :
  contains sep f = false ->
  Split sep (f ++ String sep rest) = f :: Split sep rest.
Proof.
  induction f as [|c f IH]; simpl.
  - intros _. rewrite decide_True by reflexivity. reflexivity.
  - destruct (decide (c = sep)); [discriminate|].
    intros H. rewrite (IH H). reflexivity.
Qed.

Lemma Split_of_join sep fs :
  fs <> [] -> Forall (fun f => contains sep f = false) fs ->
  Split sep (join_with sep fs) = fs.
Proof.
  intros Hne Hfs. induction Hfs as [|f fs Hf Hfs IH]; [congruence|].
  destruct fs as [|g gs].
  - simpl. apply Split_field. exact Hf.
  - rewrite join_with_cons, Split_field_cons by exact Hf.
    rewrite IH by discriminate. reflexivity.
Qed.

(** X11: a non-empty list of names without commas, written with commas in
    between, is read back as that list: by [PART] as its channels, and by
    [WHOIS] as its masks, whether alone or after a target. *)
Theorem comma_list_round_trip (fs rest : list string) (target : string) :
  fs <> [] -> Forall (fun f => contains "," f = false) fs ->
  NewPartCommand (join_with "," fs :: rest)
    = Ok (PartCommand fs (match rest with a1 :: _ => a1 | [] => "" end)) /\
  NewWhoisCommand [join_with "," fs] = Ok (WhoisCommand "" fs) /\
  NewWhoisCommand (target :: join_with "," fs :: rest)
    = Ok (WhoisCommand target fs).
Proof.
  intros Hne Hfs. unfold NewPartCommand, NewWhoisCommand.
  rewrite (Split_of_join "," fs Hne Hfs). repeat split.
Qed.

Lemma comma_list_round_trip_witness :
  NewPartCommand (join_with "," ["#a"; ""; "#b"] :: ["bye"])
    = Ok (PartCommand ["#a"; ""; "#b"] "bye") /\
  NewWhoisCommand [join_with "," ["#a"; ""; "#b"]]
    = Ok (WhoisCommand "" ["#a"; ""; "#b"]) /\
  NewWhoisCommand ("srv" :: join_with "," ["#a"; ""; "#b"] :: ["bye"])
    = Ok (WhoisCommand "srv" ["#a"; ""; "#b"]).
Proof.
  apply (comma_list_round_trip ["#a"; ""; "#b"] ["bye"] "srv").
  - discriminate.
  - repeat constructor.
Defined.

(** X12: the channels of a [PART] and the masks of a [WHOIS] are never an
    empty list, none of them contains a comma, and written with commas in
    between they give back the argument they were read from. *)
Theorem comma_list_fields (args : list string) :
  (forall chans msg, NewPartCommand args = Ok (PartCommand chans msg) ->
     chans <> [] /\ Forall (fun f => contains "," f = false) chans /\
     exists rest, args = join_with "," chans :: rest) /\
  (forall target masks, NewWhoisCommand args = Ok (WhoisCommand target masks) ->
     masks <> [] /\ Forall (fun f => contains "," f = false) masks /\
     (args = [join_with "," masks] /\ target = "" \/
      exists rest, args = target :: join_with "," masks :: rest)).
Proof.
  split.
  - intros chans msg. unfold NewPartCommand.
    destruct args as [|a0 rest]; [discriminate|]. intros [= <- _].
    split; [apply Split_nonempty|]. split; [apply Split_no_sep|].
    exists rest. rewrite Split_join. reflexivity.
  - intros target masks. unfold NewWhoisCommand.
    destruct args as [|a0 [|a1 rest]]; [discriminate| |]; intros [= <- <-].
    + split; [apply Split_nonempty|]. split; [apply Split_no_sep|].
      left. rewrite Split_join. split; reflexivity.
    + split; [apply Split_nonempty|]. split; [apply Split_no_sep|].
      right. exists rest. rewrite Split_join. reflexivity.
Qed.

(** ** USER: the mode numeral *)

Lemma decimal_fold_ge bs m :
  all_digits bs = true -> 0 <= m ->
  m <= fold_left (fun n c => n * 10 + (c - 48)) bs m.
Proof.
  revert m. induction bs as [|c bs IH]; intros m; simpl; [lia|].
  rewrite andb_true_iff. intros [Hc Hbs] Hm. bool_hyps.
  apply andb_true_iff in Hc as [H1 H2]. bool_hyps.
  specialize (IH (m * 10 + (c - 48)) Hbs ltac:(lia)). lia.
Qed.

Lemma ParseUint8_loop_spec bs n0 n :
  0 <= n0 <= 255 ->
  ParseUint8_loop n0 bs = Some n <->
  all_digits bs = true /\
  fold_left (fun n c => n * 10 + (c - 48)) bs n0 = n /\ n <= 255.
Proof.
  revert n0. induction bs as [|c bs IH]; intros n0 Hn0; simpl.
  - split; [intros [= <-]; split; [reflexivity | lia] | intros (_ & <- & _); reflexivity].
  - destruct ((48 <=? c) && (c <=? 57)) eqn:Hc; simpl.
    + apply andb_true_iff in Hc as [H1 H2]. bool_hyps.
      destruct (255 <? n0 * 10 + (c - 48)) eqn:Hov; bool_hyps.
      * split; [discriminate|]. intros (Hd & <- & Hle).
        pose proof (decimal_fold_ge bs (n0 * 10 + (c - 48)) Hd ltac:(lia)). lia.
      * apply IH. lia.
    + split; [discriminate | intros [H _]; discriminate H].
Qed.

Lemma ParseUint8_numeral m :
  ParseUint8 m = Some (numeral_mode m) \/
  (ParseUint8 m = None /\ numeral_mode m = 0).
Proof.
  unfold ParseUint8, numeral_mode, decimal_value.
  destruct (decide (m = "")) as [->|Hne]; [right; split; reflexivity|].
  rewrite bool_decide_eq_false_2 by exact Hne. simpl.
  destruct (ParseUint8_loop 0 (bytes m)) as [n|] eqn:E.
  - apply ParseUint8_loop_spec in E as (Hd & Hv & Hle); [|lia].
    left. rewrite Hd, Hv. simpl.
    destruct (Z.leb_spec n 255); [reflexivity | lia].
  - right. split; [reflexivity|].
    destruct (all_digits (bytes m)) eqn:Hd; [|reflexivity]. simpl.
    destruct (Z.leb_spec (fold_left (fun n c => n * 10 + (c - 48)) (bytes m) 0) 255)
      as [Hle|]; [|reflexivity].
    exfalso.
    assert (ParseUint8_loop 0 (bytes m)
            = Some (fold_left (fun n c => n * 10 + (c - 48)) (bytes m) 0)) as H
      by (apply ParseUint8_loop_spec; [lia | auto]).
    congruence.
Qed.

Lemma numeral_mode_range m : 0 <= numeral_mode m <= 255.
Proof.
  unfold numeral_mode.
  destruct (negb _ && all_digits (bytes m)) eqn:H; simpl; [|lia].
  apply andb_true_iff in H as [_ Hd].
  destruct (Z.leb_spec (decimal_value (bytes m)) 255); [|lia].
  pose proof (decimal_fold_ge (bytes m) 0 Hd ltac:(lia)).
  unfold decimal_value in *. lia.
Qed.

(** X13: a [USER] with four tokens always returns a command; its mode is
    the decimal value of the mode token when that token is a non-empty
    sequence of digits writing at most 255, and 0 in every other case, so it
    always fits [uint8]. *)
Theorem User_mode_value (user m unused realname : string) :
  NewUserMsgCommand [user; m; unused; realname]
    = Ok (UserMsgCommand user (numeral_mode m) unused realname) /\
  0 <= numeral_mode m <= 255.
Proof.
  split; [|apply numeral_mode_range].
  unfold NewUserMsgCommand. simpl.
  destruct (ParseUint8_numeral m) as [-> | [-> ->]]; reflexivity.
Qed.

(** ** PART: the message that is read *)

Lemma registry_PART IsChannel :
  parseCommandFuncs IsChannel !! "PART" = Some NewPartCommand.
Proof. reflexivity. Qed.

Lemma registry_JOIN IsChannel :
  parseCommandFuncs IsChannel !! "JOIN" = Some NewJoinCommand.
Proof. reflexivity. Qed.

(** X14: when a line parses to a [PART], the message read from the command
    is the third token of the line when there is one, and the nickname of
    the sender when there is none: the tokenizer never hands over an empty
    message, so the fallback to the nickname is taken exactly when the line
    carries no message. *)
Theorem Part_message_of_line upper_table IsChannel line nick chans message :
  ParseCommand upper_table IsChannel line = Ok (PartCommand chans message) ->
  PartCommand_Message nick message = default nick (tokens line !! 2%nat).
Proof.
  unfold ParseCommand, parseLine.
  destruct (tokens line) as [|t ts] eqn:Htok; [discriminate|]. simpl.
  destruct (parseCommandFuncs IsChannel !! ToUpper upper_table t)
    as [constructor|] eqn:Hc; [|discriminate].
  intros H.
  assert (ToUpper upper_table t = "PART") as Hv.
  { pose proof Hc as Hin. unfold parseCommandFuncs in Hin.
    apply elem_of_list_to_map_2 in Hin.
    destruct (registry_variants _ _ _ Hin _ _ H) as [Hv _]. symmetry. exact Hv. }
  rewrite Hv, registry_PART in Hc. injection Hc as <-.
  unfold NewPartCommand in H. destruct ts as [|a0 rest]; [discriminate|].
  injection H as _ <-. unfold PartCommand_Message.
  destruct rest as [|a1 rest']; [reflexivity|]. simpl.
  destruct (tokens_shape_aux (String.length line) line ltac:(lia) 2%nat a1)
    as [Hne _]; [rewrite Htok; reflexivity|].
  rewrite decide_False by exact Hne. reflexivity.
Qed.

Lemma Part_message_of_line_witness :
  PartCommand_Message "alice" "" = default "alice" (tokens "PART #a,#b" !! 2%nat).
Proof.
  apply (Part_message_of_line (fun r => r) (fun _ => false)
           "PART #a,#b" "alice" ["#a"; "#b"] "").
  vm_compute. reflexivity.
Defined.

(** ** Panics of [ParseCommand] on valid UTF-8 *)

Lemma valid_loop_cons f b s r size :
  DecodeRuneInString (b :: s) = (r, size) ->
  valid_loop (S f) (b :: s)
  = if decide (r = RuneError /\ size = 1%nat) then false
    else valid_loop f (drop size (b :: s)).
Proof. intros E. cbn [valid_loop]. rewrite E. reflexivity. Qed.

Lemma valid_loop_app n s t :
  (length s <= n)%nat ->
  (forall b t', t = b :: t' -> b < 0x80) ->
  valid_loop (length (s ++ t)) (s ++ t)
  = valid_loop (length s) s && valid_loop (length t) t.
Proof.
  revert s. induction n as [|n IH]; intros s Hn Ht.
  - destruct s; [reflexivity | simpl in Hn; lia].
  - destruct s as [|b s']; [reflexivity|].
    assert (DecodeRuneInString ((b :: s') ++ t) = DecodeRuneInString (b :: s')) as Happ
      by (apply DecodeRuneInString_app; [discriminate | exact Ht]).
    destruct (DecodeRuneInString (b :: s')) as [r size] eqn:E.
    pose proof E as Hsize. apply DecodeRuneInString_size in Hsize; [|discriminate].
    cbn [length] in Hsize, Hn.
    change (length (b :: s')) with (S (length s')).
    rewrite (valid_loop_cons _ _ _ _ _ E).
    change ((b :: s') ++ t) with (b :: (s' ++ t)) in *.
    change (length (b :: s' ++ t)) with (S (length (s' ++ t))).
    rewrite (valid_loop_cons _ _ _ _ _ Happ).
    destruct (decide (r = RuneError /\ size = 1%nat)); [reflexivity|].
    change (b :: s' ++ t) with ((b :: s') ++ t).
    rewrite drop_app_le by (cbn [length]; lia).
    rewrite (valid_loop_fuel (length (s' ++ t)) (length (drop size (b :: s') ++ t)))
      by (rewrite !length_app, length_drop; cbn [length]; lia).
    rewrite IH by (try rewrite length_drop; cbn [length]; auto; lia).
    f_equal. apply valid_loop_fuel; rewrite length_drop; cbn [length]; lia.
Qed.

Lemma ValidString_ascii_cons c s :
  byte c < 0x80 -> ValidString (String c s) = ValidString s.
Proof.
  intros Hc. unfold ValidString. simpl bytes.
  change (length (byte c :: bytes s)) with (S (length (bytes s))).
  assert (DecodeRuneInString (byte c :: bytes s) = (byte c, 1%nat)) as E.
  { unfold DecodeRuneInString, first.
    destruct (Z.ltb_spec (byte c) 128); [reflexivity | lia]. }
  rewrite (valid_loop_cons _ _ _ _ _ E).
  rewrite decide_False; [reflexivity|].
  intros [Hr _]. unfold RuneError in Hr. lia.
Qed.

Lemma ValidString_app_ascii s c t :
  byte c < 0x80 ->
  ValidString (s ++ String c t) = ValidString s && ValidString t.
Proof.
  intros Hc. rewrite <- (ValidString_ascii_cons c t Hc).
  unfold ValidString. rewrite bytes_app.
  apply (valid_loop_app (length (bytes s))); [lia|].
  simpl. intros b t' [= <- _]. exact Hc.
Qed.

Lemma tokens_valid_aux n : forall line, (String.length line <= n)%nat ->
  ValidString line = true ->
  Forall (fun tok => tok <> "" /\ ValidString tok = true) (tokens line).
Proof.
  induction n as [|n IH]; intros line Hn Hv.
  - destruct line; [constructor | simpl in Hn; lia].
  - destruct (tokens_cases line) as [-> | (arg & rest & Hp & Hne & -> & Hlt)];
      [constructor|].
    apply parseArg_inv in Hp as [[-> ->] | [_ [[-> ->] | ->]]]; [| |
      |exact Hne].
    + rewrite ValidString_ascii_cons in Hv by (vm_compute; reflexivity).
      repeat constructor; assumption.
    + repeat constructor; assumption.
    + rewrite ValidString_app_ascii in Hv by (vm_compute; reflexivity).
      apply andb_true_iff in Hv as [Ha Hr].
      constructor; [split; assumption|]. apply IH; [lia | exact Hr].
Qed.

Lemma flag_count_concat toks css :
  mapM flags_of toks = Some css -> flag_count toks = length (concat css).
Proof.
  unfold flag_count. revert css. induction toks as [|tok toks IH]; intros css H.
  - injection H as <-. reflexivity.
  - rewrite mapM_Some in H. inversion H as [|? cs ? css' Hf Hrest]; subst.
    rewrite <- mapM_Some in Hrest.
    apply flags_of_first_byte in Hf as [_ Hlen].
    simpl. rewrite Hlen, length_app, (IH _ Hrest). reflexivity.
Qed.

Lemma flags_all_or_bad toks :
  (exists css, mapM flags_of toks = Some css) \/
  Exists (fun tok => flags_of tok = None) toks.
Proof.
  induction toks as [|tok toks [[css IH]|IH]].
  - left. exists []. reflexivity.
  - destruct (flags_of tok) as [cs|] eqn:Hf.
    + left. exists (cs :: css). simpl. rewrite Hf. simpl. rewrite IH. reflexivity.
    + right. left. exact Hf.
  - right. right. exact IH.
Qed.

Lemma NewUserModeCommand_valid_no_panic nick toks p :
  Forall (fun tok => tok <> "" /\ ValidString tok = true) toks ->
  NewUserModeCommand (nick :: toks) <> Panic p.
Proof.
  intros Hv. unfold NewUserModeCommand.
  rewrite (RuneCount_Join_valid _ Hv).
  destruct (Z.ltb_spec (Z.of_nat (flag_count toks)) 0) as [Hneg|_]; [lia|].
  rewrite Nat2Z.id.
  destruct (flags_all_or_bad toks) as [[css Hcss]|Hbad].
  - pose proof (decode_tokens_fits toks css []
                 (replicate (flag_count toks) {| mode := 0; add := false |}) Hcss) as Hd.
    simpl in Hd. rewrite length_replicate in Hd.
    rewrite Hd by (rewrite (flag_count_concat _ _ Hcss); lia).
    discriminate.
  - pose proof (decode_tokens_malformed toks []
                 (replicate (flag_count toks) {| mode := 0; add := false |}) Hbad) as Hd.
    simpl in Hd. rewrite length_replicate in Hd. rewrite Hd by lia.
    discriminate.
Qed.

Lemma simple_constructors_no_panic args p :
  NewNickCommand args <> Panic p /\
  NewPartCommand args <> Panic p /\
  NewPassCommand args <> Panic p /\
  NewPingCommand args <> Panic p /\
  NewPongCommand args <> Panic p /\
  NewPrivMsgCommand args <> Panic p /\
  NewQuitCommand args <> Panic p /\
  NewTopicCommand args <> Panic p /\
  NewUserMsgCommand args <> Panic p /\
  NewWhoCommand args <> Panic p /\
  NewWhoisCommand args <> Panic p.
Proof.
  repeat split.
  - unfold NewNickCommand. destruct (decide _); [discriminate|].
    destruct args as [|? [|? ?]]; simpl in *; try lia. discriminate.
  - unfold NewPartCommand. destruct args; discriminate.
  - unfold NewPassCommand. destruct args; discriminate.
  - unfold NewPingCommand. destruct args; discriminate.
  - unfold NewPongCommand. destruct args; discriminate.
  - unfold NewPrivMsgCommand. destruct args as [|? [|? ?]]; discriminate.
  - discriminate.
  - unfold NewTopicCommand. destruct args; discriminate.
  - unfold NewUserMsgCommand. destruct (decide _); [discriminate|].
    destruct args as [|a [|b [|c [|d [|x l]]]]]; simpl in *; try lia.
    destruct (ParseUint8 b); discriminate.
  - discriminate.
  - unfold NewWhoisCommand. destruct args as [|? [|? ?]]; discriminate.
Qed.

(** X15: on a line that is valid UTF-8, [ParseCommand] panics in two cases
    only, both with an index out of range: when the line has no token (it is
    empty, is [":"], or starts with a space), and when it is a [JOIN] with
    more key fields than channel fields.  On every other valid UTF-8 line it
    returns a command or one of the two errors. *)
Theorem ParseCommand_panics upper_table IsChannel line p :
  ValidString line = true ->
  ParseCommand upper_table IsChannel line = Panic p <->
  p = IndexOutOfRange /\
  (tokens line = [] \/
   exists t a0 a1 rest, tokens line = t :: a0 :: a1 :: rest /\
     ToUpper upper_table t = "JOIN" /\ a0 <> "0" /\
     (length (Split "," a0) < length (Split "," a1))%nat).
Proof.
  intros Hvalid.
  pose proof (tokens_valid_aux (String.length line) line ltac:(lia) Hvalid) as Htoks.
  unfold ParseCommand, parseLine.
  destruct (tokens line) as [|t ts] eqn:Htok; simpl.
  { split; [intros [= <-]; auto | intros [-> _]; reflexivity]. }
  split.
  - destruct (parseCommandFuncs IsChannel !! ToUpper upper_table t)
      as [constructor|] eqn:Hc; [|discriminate].
    remember (ToUpper upper_table t) as verb eqn:Hverb.
    unfold parseCommandFuncs in Hc. apply elem_of_list_to_map_2 in Hc.
    pose proof (simple_constructors_no_panic ts p) as Hs.
    change (drop 0 ts) with ts. intros H.
    repeat (apply elem_of_cons in Hc as [Hc|Hc];
            [injection Hc as -> -> |]);
      [..|apply elem_of_nil in Hc; contradiction];
      try (exfalso; tauto).
    + apply NewJoinCommand_Panic_inv in H
        as [-> (a0 & a1 & rest & -> & Hz & Hlt)].
      split; [reflexivity|]. right. exists t, a0, a1, rest. auto.
    + exfalso. revert H. unfold NewModeCommand.
      destruct ts as [|a0 toks]; [discriminate|].
      destruct (IsChannel a0); [discriminate|].
      apply NewUserModeCommand_valid_no_panic.
      inversion Htoks as [|? ? _ Hrest]; subst.
      inversion Hrest; subst. assumption.
  - intros [-> [Hnil | (t' & a0 & a1 & rest & Heq & Hv & Hz & Hlt)]];
      [discriminate|].
    injection Heq as <- ->. change (drop 0 (a0 :: a1 :: rest)) with (a0 :: a1 :: rest).
    rewrite Hv, registry_JOIN.
    unfold NewJoinCommand. rewrite decide_False by exact Hz.
    rewrite fill_keys_overflow; [reflexivity | lia |].
    rewrite length_replicate. lia.
Qed.

Lemma ParseCommand_panics_witness :
  ParseCommand (fun r => r) (fun _ => false) "join #a k1,k2" = Panic IndexOutOfRange <->
  IndexOutOfRange = IndexOutOfRange /\
  (tokens "join #a k1,k2" = [] \/
   exists t a0 a1 rest, tokens "join #a k1,k2" = t :: a0 :: a1 :: rest /\
     ToUpper (fun r => r) t = "JOIN" /\ a0 <> "0" /\
     (length (Split "," a0) < length (Split "," a1))%nat).
Proof.
  apply (ParseCommand_panics (fun r => r) (fun _ => false) "join #a k1,k2").
  reflexivity.
Defined.

(** ** MODE: all outcomes *)

Lemma decode_tokens_Ok toks changes i r :
  decode_tokens changes i toks = Ok r ->
  exists css, mapM flags_of toks = Some css.
Proof.
  revert changes i. induction toks as [|tok toks IH]; intros changes i; simpl.
  - intros _. exists []. reflexivity.
  - destruct (recv (stringToRunes tok)) as [sig flags] eqn:Hrecv.
    destruct (decide (sig <> 43 /\ sig <> 45)) as [Hbad|Hsig]; [discriminate|].
    destruct (store_modes changes i (bool_decide (sig = 43)) flags)
      as [[changes' i']| e |p]; simpl; [|discriminate..].
    intros H. apply IH in H as [css Hcss].
    assert (exists cs, flags_of tok = Some cs) as [cs Hcs].
    { revert Hrecv. unfold recv, stringToRunes, flags_of.
      destruct (runes tok) as [|r0 rs].
      - intros [= <- <-]. exfalso. apply Hsig. lia.
      - intros [= -> ->].
        destruct (decide (sig = 43)); [eauto|].
        destruct (decide (sig = 45)); [eauto|]. tauto. }
    exists (cs :: css). simpl. rewrite Hcs. simpl. rewrite Hcss. reflexivity.
Qed.

Lemma NewUserModeCommand_signed nick toks css :
  mapM flags_of toks = Some css ->
  NewUserModeCommand (nick :: toks) = Ok (ModeCommand nick (concat css)).
Proof.
  intros H. unfold NewUserModeCommand.
  rewrite (RuneCount_Join _ _ H).
  destruct (Z.ltb_spec (Z.of_nat (length (concat css))) 0) as [Hneg|_]; [lia|].
  rewrite Nat2Z.id.
  pose proof (decode_tokens_fits toks css []
               (replicate (length (concat css)) {| mode := 0; add := false |}) H) as Hd.
  simpl in Hd. rewrite length_replicate in Hd. rewrite Hd by lia.
  simpl. rewrite drop_replicate, Nat.sub_diag. simpl. rewrite app_nil_r.
  reflexivity.
Qed.

(** X16: the outcomes of [NewModeCommand]: the insufficient-arguments error
    exactly without arguments; for a channel target the channel command,
    whatever the flag-tokens are (they are not looked at); and for any other
    target a command exactly when every flag-token starts with a sign
    marker, the command then being the one with the changes of the tokens. *)
Theorem NewModeCommand_outcome IsChannel (args : list string) :
  (NewModeCommand IsChannel args = Err NotEnoughArgsError <-> args = []) /\
  (forall a0 toks, args = a0 :: toks -> IsChannel a0 = true ->
     NewModeCommand IsChannel args = Ok (ChannelModeCommand a0)) /\
  (forall a0 toks cmd, args = a0 :: toks -> IsChannel a0 = false ->
     (NewModeCommand IsChannel args = Ok cmd <->
      exists css, mapM flags_of toks = Some css /\
        cmd = ModeCommand a0 (concat css))).
Proof.
  split; [|split].
  - unfold NewModeCommand. destruct args as [|a0 toks]; [tauto|].
    split; [|discriminate]. destruct (IsChannel a0); [discriminate|].
    intros H. apply NewUserModeCommand_Err in H as [He _]. discriminate He.
  - intros a0 toks -> Hch. unfold NewModeCommand. rewrite Hch. reflexivity.
  - intros a0 toks cmd -> Hch. unfold NewModeCommand. rewrite Hch. split.
    + intros H.
      assert (exists css, mapM flags_of toks = Some css) as [css Hcss].
      { revert H. unfold NewUserModeCommand. destruct (_ <? 0); [discriminate|].
        destruct (decode_tokens _ 0 toks) as [r|e|p] eqn:Hd; simpl;
          [|discriminate..].
        intros _. eapply decode_tokens_Ok. exact Hd. }
      exists css. split; [exact Hcss|].
      rewrite (NewUserModeCommand_signed _ _ _ Hcss) in H. congruence.
    + intros (css & Hcss & ->). apply NewUserModeCommand_signed. exact Hcss.
Qed.

(** ** Lines that start with the marker *)

Lemma string_map_upper_space s :
  contains " " (string_map upper_byte s) = contains " " s.
Proof.
  induction s as [|c s IH]; simpl; [reflexivity|]. rewrite IH.
  unfold upper_byte.
  destruct ((97 <=? byte c) && (byte c <=? 122)) eqn:Hc; [|reflexivity].
  apply andb_true_iff in Hc as [H1 H2]. bool_hyps.
  destruct (decide (c = " "%char)) as [->|Hne];
    [change (byte " ") with 32 in H1; lia|].
  destruct (decide (char (byte c - 32) = " "%char)) as [He|]; [|reflexivity].
  exfalso. apply (f_equal byte) in He. revert He.
  unfold byte at 1, char.
  rewrite N_ascii_embedding by (apply N2Z.inj_lt; rewrite Z2N.id by lia; lia).
  rewrite Z2N.id by lia. change (byte " ") with 32. lia.
Qed.

Lemma supported_verbs_no_space verb :
  verb ∈ supported_verbs -> contains " " verb = false.
Proof.
  intros H. unfold supported_verbs in H.
  repeat (apply elem_of_cons in H as [->|H]; [reflexivity|]).
  apply elem_of_nil in H. contradiction.
Qed.

(** X17: a line that starts with [':'] is a single token: its verb is the
    whole remainder in upper case and it never has an argument; when that
    remainder is ASCII text with a space in it (a line that still carries a
    sender prefix), the result is always the passthrough command. *)
Theorem ParseCommand_leading_marker upper_table IsChannel r :
  r <> "" ->
  parseLine upper_table (String ":" r) = Ok (ToUpper upper_table r, []) /\
  (isASCII r = true -> contains " " r = true ->
   ParseCommand upper_table IsChannel (String ":" r)
   = Ok (UnknownCommand (ToUpper upper_table r) [])).
Proof.
  intros Hr.
  assert (parseLine upper_table (String ":" r) = Ok (ToUpper upper_table r, []))
    as Hp by (unfold parseLine; rewrite (tokens_trailing r Hr); reflexivity).
  split; [exact Hp|]. intros Hascii Hsp.
  unfold ParseCommand. rewrite Hp. simpl.
  rewrite parseCommandFuncs_None; [reflexivity|].
  intros Hin. apply supported_verbs_no_space in Hin.
  unfold ToUpper in Hin. rewrite Hascii, string_map_upper_space in Hin.
  congruence.
Qed.

Lemma ParseCommand_leading_marker_witness :
  parseLine (fun r => r) (String ":" "nick!u@h PRIVMSG #a :hi")
  = Ok (ToUpper (fun r => r) "nick!u@h PRIVMSG #a :hi", []) /\
  (isASCII "nick!u@h PRIVMSG #a :hi" = true ->
   contains " " "nick!u@h PRIVMSG #a :hi" = true ->
   ParseCommand (fun r => r) (fun _ => false) (String ":" "nick!u@h PRIVMSG #a :hi")
   = Ok (UnknownCommand (ToUpper (fun r => r) "nick!u@h PRIVMSG #a :hi") [])).
Proof.
  apply (ParseCommand_leading_marker (fun r => r) (fun _ => false)
           "nick!u@h PRIVMSG #a :hi").
  discriminate.
Defined.

(** ** The insufficient-arguments error *)

Lemma NewJoinCommand_Err_inv args e :
  NewJoinCommand args = Err e -> args = [].
Proof.
  destruct args as [|a0 rest]; [reflexivity|]. intros H. exfalso.
  destruct (decide (a0 = "0")) as [->|Hz]; [discriminate H|].
  destruct (decide (length (join_keys rest) <= length (Split "," a0))%nat)
    as [Hle|Hgt].
  - destruct (NewJoinCommand_fits a0 rest Hz Hle) as [m Hm]. congruence.
  - destruct rest as [|a1 rest']; simpl in Hgt; [lia|].
    revert H. unfold NewJoinCommand. rewrite decide_False by exact Hz.
    rewrite fill_keys_overflow; [discriminate | lia |].
    rewrite length_replicate. lia.
Qed.

Lemma registry_too_few IsChannel verb constructor :
  (verb, constructor) ∈
    [ ("JOIN", NewJoinCommand); ("MODE", NewModeCommand IsChannel);
      ("NICK", NewNickCommand); ("PART", NewPartCommand);
      ("PASS", NewPassCommand); ("PING", NewPingCommand);
      ("PONG", NewPongCommand); ("PRIVMSG", NewPrivMsgCommand);
      ("QUIT", NewQuitCommand); ("TOPIC", NewTopicCommand);
      ("USER", NewUserMsgCommand); ("WHO", NewWhoCommand);
      ("WHOIS", NewWhoisCommand) ] ->
  forall args,
    constructor args = Err NotEnoughArgsError <->
    too_few verb (length args) = true.
Proof.
  intros H.
  repeat (apply elem_of_cons in H as [H|H]; [injection H as -> ->|]);
    [..|apply elem_of_nil in H; contradiction]; intros args.
  - split.
    + intros E. apply NewJoinCommand_Err_inv in E as ->. reflexivity.
    + destruct args; [reflexivity | discriminate].
  - split.
    + unfold NewModeCommand. destruct args as [|a0 toks]; [reflexivity|].
      destruct (IsChannel a0); [discriminate|].
      intros E. apply NewUserModeCommand_Err in E as [He _]. discriminate He.
    + destruct args; [reflexivity | discriminate].
  - unfold NewNickCommand. destruct args as [|? [|? ?]]; simpl; split;
      (reflexivity || discriminate).
  - destruct args; simpl; split; (reflexivity || discriminate).
  - destruct args; simpl; split; (reflexivity || discriminate).
  - destruct args; simpl; split; (reflexivity || discriminate).
  - destruct args; simpl; split; (reflexivity || discriminate).
  - destruct args as [|? [|? ?]]; simpl; split; (reflexivity || discriminate).
  - split; discriminate.
  - destruct args; simpl; split; (reflexivity || discriminate).
  - unfold NewUserMsgCommand.
    destruct args as [|a [|b [|c [|d [|x l]]]]]; simpl; split;
      try (reflexivity || discriminate).
    destruct (ParseUint8 b); discriminate.
  - split; discriminate.
  - destruct args as [|? [|? ?]]; simpl; split; (reflexivity || discriminate).
Qed.

Lemma too_few_supported verb n :
  too_few verb n = true -> verb ∈ supported_verbs.
Proof.
  unfold too_few, supported_verbs. intros H. apply list_elem_of_In. revert H.
  destruct (decide (verb = "NICK")) as [->|_]; [intros _; simpl; tauto|].
  destruct (decide (verb = "USER")) as [->|_]; [intros _; simpl; tauto|].
  destruct (decide (verb = "PRIVMSG")) as [->|_]; [intros _; simpl; tauto|].
  destruct (decide (verb ∈ _)) as [Hin|_]; [|discriminate].
  intros _. apply list_elem_of_In in Hin. simpl in *. tauto.
Qed.

(** X18: [ParseCommand] returns the insufficient-arguments error exactly
    when the line has a first token whose upper case is a verb of the
    registry and the tokens after it are too few for that verb: not one for
    [NICK], not four for [USER], fewer than two for [PRIVMSG], none for
    [JOIN], [MODE], [PART], [PASS], [PING], [PONG], [TOPIC] and [WHOIS];
    never for [QUIT], [WHO] or a verb that is not registered. *)
Theorem ParseCommand_not_enough_args upper_table IsChannel line :
  ParseCommand upper_table IsChannel line = Err NotEnoughArgsError <->
  exists t ts, tokens line = t :: ts /\
    too_few (ToUpper upper_table t) (length ts) = true.
Proof.
  unfold ParseCommand, parseLine.
  destruct (tokens line) as [|t ts]; simpl.
  { split; [discriminate | intros (? & ? & H & _); discriminate H]. }
  change (drop 0 ts) with ts.
  destruct (parseCommandFuncs IsChannel !! ToUpper upper_table t)
    as [constructor|] eqn:Hc.
  - unfold parseCommandFuncs in Hc. apply elem_of_list_to_map_2 in Hc.
    rewrite (registry_too_few _ _ _ Hc ts). split.
    + intros H. exists t, ts. auto.
    + intros (t' & ts' & [= <- <-] & H). exact H.
  - split; [discriminate|]. intros (t' & ts' & [= <- <-] & H).
    apply too_few_supported in H. apply registry_keys in Hc. contradiction.
Qed.
